(** * mbp-audio: a shallow embedding of [audio_processing_streamlit.py]

    The development follows the source file top to bottom: Python
    strings and the numeric sort key, the [pydub.silence] routines the
    program calls, then the four operations [cut_audio], [join_audio],
    [normalize_audio] and [generate_anki_csv].  Time is counted in whole
    milliseconds, the unit of every pydub duration and slice index; a
    decoded waveform is the list of its one-millisecond frames, each
    frame holding the integer PCM samples of that millisecond (frame
    rates that are a multiple of 1000 Hz, such as the 48 kHz the
    normalizer produces).  Floating-point primitives of the audio
    library (levels in dB, the RMS comparison, the gain product) and the
    codec are the fields of the class [AudioPort]; percentages, which
    the program computes in binary64, are modelled bit-exactly. *)

From stdpp Require Import gmap strings list.
From Stdlib Require Import ZArith Lia Ascii DecimalString DecimalPos Permutation Sorted.

Open Scope Z_scope.

(** ** Python strings

    A [str] is a Rocq [string]; each [ascii] is one code point below
    256.  On that range [\d] matches exactly [0-9]. *)

Definition ord (c : ascii) : Z := Z.of_N (Ascii.N_of_ascii c).

Definition between (lo hi : Z) (c : ascii) : bool :=
  (lo <=? ord c) && (ord c <=? hi).

(** [\d]: decimal digits. *)
Definition is_decimal (c : ascii) : bool := between 48 57 c.

(** [str.isalnum] on code points below 256. *)
Definition is_alnum (c : ascii) : bool :=
  between 48 57 c || between 65 90 c || between 97 122 c
  || (ord c =? 170) || (ord c =? 178) || (ord c =? 179) || (ord c =? 181)
  || (ord c =? 185) || (ord c =? 186) || between 188 190 c
  || between 192 214 c || between 216 246 c || between 248 255 c.

(** [\w]: alphanumerics and the underscore. *)
Definition is_word (c : ascii) : bool := is_alnum c || (ord c =? 95).

(** Whitespace removed by [str.strip()]. *)
Definition is_space (c : ascii) : bool :=
  between 9 13 c || between 28 32 c || (ord c =? 133) || (ord c =? 160).

Fixpoint lstrip (s : string) : string :=
  match s with
  | EmptyString => EmptyString
  | String c r => if is_space c then lstrip r else s
  end.

Fixpoint rstrip (s : string) : string :=
  match s with
  | EmptyString => EmptyString
  | String c r =>
      match rstrip r with
      | EmptyString => if is_space c then EmptyString else String c EmptyString
      | r' => String c r'
      end
  end.

Definition strip (s : string) : string := rstrip (lstrip s).

(** [re.sub(r'[^\w]', '', s)] *)
Fixpoint re_sub_nonword (s : string) : string :=
  match s with
  | EmptyString => EmptyString
  | String c r => if is_word c then String c (re_sub_nonword r) else re_sub_nonword r
  end.

Fixpoint take_digits (s : string) : string :=
  match s with
  | EmptyString => EmptyString
  | String c r => if is_decimal c then String c (take_digits r) else EmptyString
  end.

(** [re.search(r"(\d+)", s)]: the leftmost, longest run of digits. *)
Fixpoint re_search_digits (s : string) : option string :=
  match s with
  | EmptyString => None
  | String c r => if is_decimal c then Some (take_digits s) else re_search_digits r
  end.

Fixpoint int_digits (acc : Z) (s : string) : Z :=
  match s with
  | EmptyString => acc
  | String c r => int_digits (10 * acc + (ord c - 48)) r
  end.

(** [int(s)] on a string of decimal digits. *)
Definition int_of_str (s : string) : Z := int_digits 0 s.

(** [str(i)] *)
Definition str (i : Z) : string := NilZero.string_of_int (Z.to_int i).

(** ** The sort key and [sorted]

    [key] returns an [int] or [float('inf')]. *)

Inductive sort_key := KInt (n : Z) | KInf.

Definition key_lt (a b : sort_key) : bool :=
  match a, b with
  | KInt x, KInt y => x <? y
  | KInt _, KInf => true
  | KInf, _ => false
  end.

Definition key_eqb (a b : sort_key) : bool :=
  match a, b with
  | KInt x, KInt y => x =? y
  | KInf, KInf => true
  | _, _ => false
  end.

Definition key_of_name (name : string) : sort_key :=
  match re_search_digits name with
  | Some m => KInt (int_of_str m)
  | None => KInf
  end.

(** [sorted(l, key=k)] is a stable sort: elements are compared with [<]
    on their keys and equal keys keep their input order.  Every stable
    sort returns the same list; it is written here by insertion. *)
Fixpoint insert_by {A} (k : A -> sort_key) (x : A) (l : list A) : list A :=
  match l with
  | [] => [x]
  | y :: r => if key_lt (k y) (k x) then y :: insert_by k x r else x :: y :: r
  end.

Fixpoint sorted {A} (k : A -> sort_key) (l : list A) : list A :=
  match l with
  | [] => []
  | x :: r => insert_by k x (sorted k r)
  end.

(** [a <= b] on keys, and the two classes of names. *)
Definition key_le (a b : sort_key) : Prop := key_lt b a = false.

Definition has_int {A} (k : A -> sort_key) (a : A) : bool := negb (key_eqb (k a) KInf).

Definition no_int {A} (k : A -> sort_key) (a : A) : bool := key_eqb (k a) KInf.

(** ** Percentages in binary64

    [int(i/total*scale)] is evaluated in IEEE doubles: the quotient of
    two ints is correctly rounded, so is the product with [scale], and
    [int] truncates.  All values met are positive and below [2^52]; such
    a double is [mant / 2^shift]. *)

Record dyadic := Dy { mant : Z; shift : Z }.

Definition round_half_even (a b : Z) : Z :=
  let q := a / b in
  let r := a mod b in
  if 2 * r <? b then q
  else if b <? 2 * r then q + 1
  else if Z.even q then q else q + 1.

(** The exponent that brings [n/d] into [[2^52, 2^53)]. *)
Definition float_shift (n d : Z) : Z :=
  let t := 52 - (Z.log2 n - Z.log2 d) in
  if 2 ^ 52 * d <=? n * 2 ^ t then t else t + 1.

(** [n / d], rounded to nearest, ties to even. *)
Definition float_div (n d : Z) : dyadic :=
  if n =? 0 then Dy 0 0
  else let k := float_shift n d in Dy (round_half_even (n * 2 ^ k) d) k.

(** [x * c] for an int [c]. *)
Definition float_mul (x : dyadic) (c : Z) : dyadic :=
  float_div (mant x * c) (2 ^ shift x).

(** [int(x)] *)
Definition float_int (x : dyadic) : Z := mant x / 2 ^ shift x.

(** [int(i/total*scale)] *)
Definition pct (i total scale : Z) : Z :=
  float_int (float_mul (float_div i total) scale).

(** ** Effects: the progress sink, temporary files and exceptions *)

Inductive exn :=
| ValueError (msg : string)
| IndexError
| StopException
| CouldntDecodeError
| CouldntEncodeError
| CalledProcessError (returncode : Z).

Inductive result (A : Type) :=
| Ok (a : A)
| Raise (e : exn).
Arguments Ok {A} a.
Arguments Raise {A} e.

(** [sink]: the values passed to [progress], oldest first;
    [tmp]: the temporary files present on disk. *)
Record world := World { sink : list Z; tmp : gset nat }.

Definition Run (A : Type) : Type := world -> result A * world.

Definition ret {A} (a : A) : Run A := fun w => (Ok a, w).

Definition raise {A} (e : exn) : Run A := fun w => (Raise e, w).

Definition bind {A B} (m : Run A) (k : A -> Run B) : Run B :=
  fun w => match m w with
           | (Ok a, w') => k a w'
           | (Raise e, w') => (Raise e, w')
           end.

Notation "x <- m ;; k" := (bind m (fun x => k))
  (at level 100, m at next level, right associativity).
Notation "m ;;; k" := (bind m (fun _ => k))
  (at level 100, right associativity).

(** [if progress: progress(v)] *)
Definition progress (v : Z) : Run unit :=
  fun w => (Ok tt, World (sink w ++ [v]) (tmp w)).

(** [tempfile.NamedTemporaryFile(delete=False)]: a new file under a name
    not in use. *)
Definition NamedTemporaryFile : Run nat :=
  fun w => let p := fresh (tmp w) in (Ok p, World (sink w) (tmp w ∪ {[ p ]})).

(** [os.unlink(p)] *)
Definition unlink (p : nat) : Run unit :=
  fun w => (Ok tt, World (sink w) (tmp w ∖ {[ p ]})).

Definition lift_option {A} (e : exn) (o : option A) : Run A :=
  match o with
  | Some a => ret a
  | None => raise e
  end.

Definition world0 : world := World [] ∅.

(** ** Waveforms *)

Abbreviation frame := (list Z) (only parsing).
Abbreviation AudioSegment := (list (list Z)) (only parsing).
Abbreviation bytes := (list Byte.byte) (only parsing).

Class AudioPort := {
  (** a Python float holding a level or a gain in dB *)
  dB : Type;
  (** samples in one millisecond: frame rate times channels over 1000 *)
  spm : nat;
  (** [rms <= db_to_float(thresh) * max_possible_amplitude] on the
      samples of a slice *)
  rms_le : Z -> list Z -> bool;
  (** [ratio_to_db(max / max_possible_amplitude)] for a peak amplitude *)
  ratio_to_db : Z -> dB;
  (** [-3 - x] *)
  minus3_minus : dB -> dB;
  (** one sample of [audioop.mul(data, width, db_to_float(g))] *)
  mul_sample : dB -> Z -> Z;
  (** [AudioSegment.from_file(io.BytesIO(data))]; [None] when decoding
      fails *)
  from_file : bytes -> option AudioSegment;
}.

Record InMemoryFile := { name : string; _data : bytes }.

Definition read (f : InMemoryFile) : bytes := _data f.

(** [key(f)] of [join_audio] and [generate_anki_csv] *)
Definition key (f : InMemoryFile) : sort_key := key_of_name (name f).

(** ** pydub: segments, slicing and silence detection *)

Section Pydub.
Context `{AudioPort}.

(** [len(seg)], in milliseconds *)
Definition len (seg : AudioSegment) : Z := Z.of_nat (length seg).

(** [seg[start:stop]] for [0 <= start] and [stop <= len(seg)], the only
    slices the program takes. *)
Definition slice (seg : AudioSegment) (start stop : Z) : AudioSegment :=
  take (Z.to_nat (stop - start)) (drop (Z.to_nat start) seg).

(** [AudioSegment.silent(duration=d)] *)
Definition silent (duration : Z) : AudioSegment :=
  replicate (Z.to_nat duration) (replicate spm 0).

(** [AudioSegment.empty()] *)
Definition empty : AudioSegment := [].

Definition samples (seg : AudioSegment) : list Z := concat seg.

(** [seg.max]: the largest absolute sample value, 0 when there is none *)
Definition peak (seg : AudioSegment) : Z :=
  fold_right (fun x m => Z.max (Z.abs x) m) 0 (samples seg).

(** [seg.max_dBFS] *)
Definition max_dBFS (seg : AudioSegment) : dB := ratio_to_db (peak seg).

(** [seg.apply_gain(g)]: every sample multiplied by the same factor *)
Definition apply_gain (seg : AudioSegment) (g : dB) : AudioSegment :=
  map (map (mul_sample g)) seg.

(** [range(0, n)] *)
Definition range (n : Z) : list Z := seqZ 0 n.

(** The slice starts whose window of [min_silence_len] ms is silent
    ([seek_step] is 1). *)
Definition silence_starts (seg : AudioSegment) (min_silence_len thresh : Z) : list Z :=
  List.filter
    (fun i => rms_le thresh (samples (slice seg i (i + min_silence_len))))
    (range (len seg - min_silence_len + 1)).

(** The loop of [detect_silence] that merges the silent starts into
    ranges; [cur] is [current_range_start] and [prev] is [prev_i]. *)
Fixpoint group_ranges (min_silence_len cur prev : Z) (starts : list Z) : list (Z * Z) :=
  match starts with
  | [] => [(cur, prev + min_silence_len)]
  | s :: rest =>
      let continuous := s =? prev + 1 in
      let silence_has_gap := prev + min_silence_len <? s in
      if negb continuous && silence_has_gap
      then (cur, prev + min_silence_len) :: group_ranges min_silence_len s s rest
      else group_ranges min_silence_len cur s rest
  end.

Definition detect_silence (seg : AudioSegment) (min_silence_len thresh : Z) : list (Z * Z) :=
  if len seg <? min_silence_len then []
  else match silence_starts seg min_silence_len thresh with
       | [] => []
       | s0 :: rest => group_ranges min_silence_len s0 s0 rest
       end.

(** The loop of [detect_nonsilent] over the silent ranges, with the
    trailing range appended when the last silence stops before the end. *)
Fixpoint nonsilent_between (len_seg prev_end_i : Z) (silent_ranges : list (Z * Z)) : list (Z * Z) :=
  match silent_ranges with
  | [] => if prev_end_i =? len_seg then [] else [(prev_end_i, len_seg)]
  | (start_i, end_i) :: rest => (prev_end_i, start_i) :: nonsilent_between len_seg end_i rest
  end.

Definition detect_nonsilent (seg : AudioSegment) (min_silence_len thresh : Z) : list (Z * Z) :=
  let silent_ranges := detect_silence seg min_silence_len thresh in
  let len_seg := len seg in
  match silent_ranges with
  | [] => [(0, len_seg)]
  | (s0, e0) :: _ =>
      if (s0 =? 0) && (e0 =? len_seg) then []
      else match nonsilent_between len_seg 0 silent_ranges with
           | (0, 0) :: rest => rest
           | nonsilent_ranges => nonsilent_ranges
           end
  end.

(** The [pairwise] loop of [split_on_silence]: overlapping neighbours
    meet at their midpoint; the update of [range_ii] is seen by the next
    iteration. *)
Fixpoint meet_overlaps (range_i : Z * Z) (rest : list (Z * Z)) : list (Z * Z) :=
  match rest with
  | [] => [range_i]
  | range_ii :: rest' =>
      let last_end := snd range_i in
      let next_start := fst range_ii in
      if next_start <? last_end
      then let mid := (last_end + next_start) / 2 in
           (fst range_i, mid) :: meet_overlaps (mid, snd range_ii) rest'
      else range_i :: meet_overlaps range_ii rest'
  end.

Definition output_ranges (seg : AudioSegment) (min_silence_len thresh keep_silence : Z) : list (Z * Z) :=
  match map (fun r => (fst r - keep_silence, snd r + keep_silence))
            (detect_nonsilent seg min_silence_len thresh) with
  | [] => []
  | r :: rs => meet_overlaps r rs
  end.

Definition split_on_silence (seg : AudioSegment) (min_silence_len thresh keep_silence : Z)
  : list AudioSegment :=
  map (fun r => slice seg (Z.max (fst r) 0) (Z.min (snd r) (len seg)))
      (output_ranges seg min_silence_len thresh keep_silence).

(** ** [cut_audio] *)

(** [text_line], line 40 *)
Definition text_line (lines : list string) (i : Z) : string :=
  match lines !! Z.to_nat (i - 1) with
  | Some line => re_sub_nonword (strip line)
  | None => str i
  end.

(** [name], line 41 *)
Definition chunk_name (lines : list string) (suffix : string) (i : Z) : string :=
  str i +:+ "-" +:+ text_line lines i +:+ "-" +:+ suffix +:+ ".mp3".

(** The loop of lines 39-49; [zf] collects the archive entries, each
    the name and the waveform handed to the encoder. *)
Fixpoint cut_loop (lines : list string) (suffix : string) (total i : Z)
    (chunks : list AudioSegment) (zf : list (string * AudioSegment))
  : Run (list (string * AudioSegment)) :=
  match chunks with
  | [] => ret zf
  | chunk :: rest =>
      let name := chunk_name lines suffix i in
      let pad := silent 150 in
      let combined := pad ++ chunk ++ pad in
      progress (pct i total 100) ;;;
      cut_loop lines suffix total (i + 1) rest (zf ++ [(name, combined)])
  end.

(** [cut_audio], from the decoded [sound] and the transcript [lines] *)
Definition cut_audio (sound : AudioSegment) (lines : list string) (suffix : string)
  : Run (list (string * AudioSegment)) :=
  let chunks := split_on_silence sound 1000 (-50) 150 in
  let total := Z.of_nat (length chunks) in
  cut_loop lines suffix total 1 chunks [].

(** ** [join_audio] *)

(** Lines 64-68: the trimming of one chunk. *)
Definition trim (sound : AudioSegment) : AudioSegment :=
  let nons := detect_nonsilent sound 25 (-40) in
  match nons with
  | [] => sound
  | first :: _ =>
      let start := Z.max 0 (fst first - 100) in
      let stop := Z.min (len sound) (snd (List.last nons first) + 100) in
      slice sound start stop
  end.

(** The loop of lines 61-71 *)
Fixpoint load_loop (total i : Z) (files : list InMemoryFile) (segments : list AudioSegment)
  : Run (list AudioSegment) :=
  match files with
  | [] => ret segments
  | f :: rest =>
      sound <- lift_option CouldntDecodeError (from_file (read f)) ;;
      let sound := trim sound in
      progress (pct i total 50) ;;;
      load_loop total (i + 1) rest (segments ++ [sound])
  end.

(** The silence appended after a segment, line 75 *)
Definition filler (mode : string) (seg : AudioSegment) : AudioSegment :=
  if String.eqb mode "SAI" then silent 1000 else silent (len seg * 2).

(** The loop of lines 73-77 *)
Fixpoint concat_loop (mode : string) (total i : Z) (segments : list AudioSegment)
    (combined : AudioSegment) : Run AudioSegment :=
  match segments with
  | [] => ret combined
  | seg :: rest =>
      let combined := combined ++ seg in
      let combined := combined ++ filler mode seg in
      progress (50 + pct i total 50) ;;;
      concat_loop mode total (i + 1) rest combined
  end.

(** Lines 78-79 *)
Definition finish (mode : string) (combined : AudioSegment) : AudioSegment :=
  if String.eqb mode "SAI"
  then apply_gain combined (minus3_minus (max_dBFS combined))
  else combined.

(** [join_audio]; the result is the waveform handed to the encoder. *)
Definition join_audio (files : list InMemoryFile) (mode : string) : Run AudioSegment :=
  let files := sorted key files in
  let total := Z.of_nat (length files) in
  segments <- load_loop total 1 files [] ;;
  combined <- concat_loop mode total 1 segments empty ;;
  ret (finish mode combined).

(** ** [normalize_audio] *)

(** What the environment answers during one call: whether
    [setup_ffmpeg] finds the executables, the exit status of the
    loudness tool, the decoding of its output file and the final
    encoding ([None]: the step raises). *)
Record tool := {
  ffmpeg_found : bool;
  returncode : Z;
  from_wav : option AudioSegment;
  export_mp3 : AudioSegment -> option bytes;
}.

Definition setup_ffmpeg (t : tool) : Run unit :=
  if ffmpeg_found t then ret tt else raise StopException.

(** [subprocess.run(cmd, check=True, capture_output=True)] *)
Definition subprocess_run (t : tool) : Run unit :=
  if returncode t =? 0 then ret tt else raise (CalledProcessError (returncode t)).

Definition normalize_audio (t : tool) (input_bytes : bytes) : Run bytes :=
  setup_ffmpeg t ;;;
  audio <- lift_option CouldntDecodeError (from_file input_bytes) ;;
  tmp_in <- NamedTemporaryFile ;;
  progress 10 ;;;
  tmp_out <- NamedTemporaryFile ;;
  progress 20 ;;;
  subprocess_run t ;;;
  progress 70 ;;;
  norm <- lift_option CouldntDecodeError (from_wav t) ;;
  out_buf <- lift_option CouldntEncodeError (export_mp3 t norm) ;;
  progress 100 ;;;
  unlink tmp_in ;;;
  unlink tmp_out ;;;
  ret out_buf.

End Pydub.

(** ** [generate_anki_csv] *)

Definition sound_field (f : InMemoryFile) : string := "[sound:" +:+ name f +:+ "]".

Definition mismatch_message (rows files : nat) : string :=
  "Row count (" +:+ str (Z.of_nat rows) +:+ ") != file count ("
  +:+ str (Z.of_nat files) +:+ ")".

(** The loop of lines 117-119; [buf] holds the rows written so far. *)
Fixpoint write_rows (files : list InMemoryFile) (total i : Z)
    (rows : list (list string)) (buf : list (list string)) : Run (list (list string)) :=
  match rows with
  | [] => ret buf
  | row :: rest =>
      f <- lift_option IndexError (files !! Z.to_nat (i - 1)) ;;
      let buf := buf ++ [row ++ [sound_field f]] in
      progress (pct i total 100) ;;;
      write_rows files total (i + 1) rest buf
  end.

(** [generate_anki_csv], from the parsed [rows]; the result is the
    sequence of rows given to [writer.writerow]. *)
Definition generate_anki_csv (rows : list (list string)) (files : list InMemoryFile)
  : Run (list (list string)) :=
  let files := sorted key files in
  let total := Z.of_nat (length rows) in
  if negb (length rows =? length files)%nat
  then raise (ValueError (mismatch_message (length rows) (length files)))
  else write_rows files total 1 rows [].

(** ** A reference port: 16-bit PCM in exact arithmetic

    Used to evaluate the operations on concrete waveforms.  A level is
    kept as the peak amplitude it was measured from, so no logarithm is
    rounded; floor and clipping are those of [audioop]. *)

Inductive level :=
| NegInf                (* -inf dB *)
| PosInf                (* +inf dB *)
| LevelOf (a : Z)       (* 20*log10(a/32768), 0 < a *)
| GainFor (a : Z).      (* -3 - 20*log10(a/32768), 0 < a *)

(** The largest [y] in [[lo, lo + 2^bits)] with [ok y], for a
    downward-closed [ok] that holds at [lo]. *)
Fixpoint search_up (ok : Z -> bool) (bits : nat) (lo : Z) : Z :=
  match bits with
  | O => lo
  | S b => let c := lo + 2 ^ Z.of_nat b in search_up ok b (if ok c then c else lo)
  end.

(** [floor(n/d * 10^(-3/20))] for [0 <= n], [0 < d] *)
Definition scale_minus3 (n d : Z) : Z :=
  search_up (fun y => 1000 * (y * d) ^ 20 <=? n ^ 20) 17 0.

(** [floor(32768 * 10^(db/20))] for [db <= 0] *)
Definition amplitude_of_db (db : Z) : Z :=
  search_up (fun t => t ^ 20 * 10 ^ (- db) <=? 32768 ^ 20) 16 0.

Definition clip16 (v : Z) : Z := Z.max (-32768) (Z.min 32767 v).

Definition pcm16_mul (g : level) (x : Z) : Z :=
  match g with
  | NegInf => 0
  | PosInf => if x =? 0 then 0 else if 0 <? x then 32767 else -32768
  | LevelOf a => clip16 (x * a / 32768)
  | GainFor a =>
      if x =? 0 then 0
      else if 0 <? x then clip16 (scale_minus3 (x * 32768) a)
      else clip16 (- scale_minus3 (- x * 32768) a - 1)
  end.

Definition pcm16_rms_le (thresh : Z) (xs : list Z) : bool :=
  let n := Z.of_nat (length xs) in
  let sum_squares := fold_right (fun x s => x * x + s) 0 xs in
  (n =? 0) || (sum_squares <? (amplitude_of_db thresh + 1) ^ 2 * n).

(** A raw container: one unsigned byte per millisecond, centred on 128. *)
Definition pcm16_from_file (data : bytes) : option AudioSegment :=
  Some (map (fun b => [(Z.of_N (Byte.to_N b) - 128) * 256]) data).

Definition Pcm16 : AudioPort := {|
  dB := level;
  spm := 1;
  rms_le := pcm16_rms_le;
  ratio_to_db := fun a => if a =? 0 then NegInf else LevelOf a;
  minus3_minus := fun l =>
    match l with
    | NegInf => PosInf
    | PosInf => NegInf
    | LevelOf a => GainFor a
    | GainFor a => LevelOf a
    end;
  mul_sample := pcm16_mul;
  from_file := pcm16_from_file;
|}.

(** A waveform of [n] milliseconds at sample value [v]. *)
Definition tone (n : nat) (v : Z) : AudioSegment := replicate n [v].

(** ** Observations and example inputs *)

(** The value an operation returns, [None] when it raises. *)
Definition returned {A} (r : result A * world) : option A :=
  match fst r with
  | Ok a => Some a
  | Raise _ => None
  end.

(** The values passed to the progress sink during a run. *)
Definition reported {A} (r : result A * world) : list Z := sink (snd r).

(** [s.endswith(suffix)] *)
Definition ends_with (suffix s : string) : bool :=
  let n := String.length s in
  let m := String.length suffix in
  (m <=? n)%nat && String.eqb (String.substring (n - m) m s) suffix.

Definition file (n : string) : InMemoryFile := {| name := n; _data := [] |}.

(** Two bursts of sound separated by one second of silence. *)
Definition two_spans : AudioSegment := tone 3 20000 ++ tone 1000 0 ++ tone 3 20000.

Definition hello_lines : list string := ["Hello, World!"; ""].

(** Every character of [s] satisfies [p]. *)
Fixpoint all_chars (p : ascii -> bool) (s : string) : bool :=
  match s with
  | EmptyString => true
  | String c r => p c && all_chars p r
  end.

Definition digit_free (s : string) : bool := all_chars (fun c => negb (is_decimal c)) s.

Definition all_digits (s : string) : bool := all_chars is_decimal s.

(** [s] is empty or starts with a character that is not a digit. *)
Definition no_digit_ahead (s : string) : bool :=
  match s with
  | EmptyString => true
  | String c _ => negb (is_decimal c)
  end.

(** ** Well-formed range lists

    [wf_ranges m lo hi]: silent ranges at least [m] long, within
    [[lo, hi]], each starting after the end of the one before.
    [wf_spans m lo hi]: non-silent spans within [[lo, hi]], in
    chronological order, separated by at least [m]. *)

Fixpoint wf_ranges (m lo hi : Z) (rs : list (Z * Z)) : Prop :=
  match rs with
  | [] => True
  | (a, b) :: rs' => lo <= a /\ a + m <= b /\ b <= hi /\ wf_ranges m (b + 1) hi rs'
  end.

Fixpoint wf_spans (m lo hi : Z) (ns : list (Z * Z)) : Prop :=
  match ns with
  | [] => True
  | (s, e) :: ns' => lo <= s /\ s <= e /\ e <= hi /\ wf_spans m (e + m) hi ns'
  end.

(** A burst of sound followed by one second of silence. *)
Definition one_span : AudioSegment := tone 5 20000 ++ tone 1000 0.

(** A short burst with 120 ms of silence on each side. *)
Definition short_burst : AudioSegment := tone 120 0 ++ tone 50 20000 ++ tone 120 0.



(** Two short files, out of order. *)
Definition loud_file : InMemoryFile :=
  {| name := "2-loud"; _data := replicate 3 Byte.xff |}.

(** [x <= y] on doubles [mant / 2^shift] *)
Definition dy_le (x y : dyadic) : Prop := mant x * 2 ^ shift y <= mant y * 2 ^ shift x.

(** What a progress sink may be sent: non-decreasing integers in
    [[0, 100]]. *)
Definition valid_progress (vs : list Z) : Prop :=
  StronglySorted Z.le vs /\ Forall (fun v => 0 <= v <= 100) vs.

(** The loudness tool exits with status 1. *)
Definition failing_tool : tool :=
  {| ffmpeg_found := true; returncode := 1; from_wav := None;
     export_mp3 := fun _ => None |}.

(** The loudness tool succeeds and its output decodes and encodes. *)
Definition working_tool : tool :=
  {| ffmpeg_found := true; returncode := 0; from_wav := Some (tone 3 100);
     export_mp3 := fun _ => Some [Byte.x01] |}.

(** * Properties *)

(** ** The monad *)

Lemma bind_ok {A B} (m : Run A) (k : A -> Run B) w a w' :
  m w = (Ok a, w') -> bind m k w = k a w'.
Proof. intros E. unfold bind. now rewrite E. Qed.

Lemma bind_raise {A B} (m : Run A) (k : A -> Run B) w e w' :
  m w = (Raise e, w') -> bind m k w = (Raise e, w').
Proof. intros E. unfold bind. now rewrite E. Qed.

(** ** Sorting *)

Section Sorting.
Context {A : Type} (k : A -> sort_key).

Lemma key_lt_irrefl a : key_lt a a = false.
Proof. destruct a; simpl; [apply Z.ltb_irrefl | reflexivity]. Qed.

Lemma key_lt_le a b : key_lt a b = true -> key_le a b.
Proof.
  unfold key_le. destruct a, b; simpl; try congruence.
  rewrite Z.ltb_lt, Z.ltb_ge. lia.
Qed.

Lemma key_le_trans a b c : key_le a b -> key_le b c -> key_le a c.
Proof.
  unfold key_le. destruct a, b, c; simpl; try congruence.
  rewrite !Z.ltb_ge. lia.
Qed.

Lemma key_eqb_eq a b : key_eqb a b = true <-> a = b.
Proof.
  destruct a, b; simpl; try (split; congruence).
  rewrite Z.eqb_eq. split; congruence.
Qed.

Lemma key_lt_neq a b p : key_lt a b = true -> key_eqb a p && key_eqb b p = false.
Proof.
  intros Hlt. destruct (key_eqb a p) eqn:Ea, (key_eqb b p) eqn:Eb; try reflexivity.
  apply key_eqb_eq in Ea, Eb. subst. now rewrite key_lt_irrefl in Hlt.
Qed.

Lemma insert_by_perm x l : Permutation (x :: l) (insert_by k x l).
Proof.
  induction l as [|y r IH]; simpl; [reflexivity|].
  destruct (key_lt (k y) (k x)); [|reflexivity].
  rewrite <- IH. apply perm_swap.
Qed.

Lemma sorted_perm l : Permutation l (sorted k l).
Proof.
  induction l as [|x r IH]; simpl; [reflexivity|].
  rewrite <- insert_by_perm. now constructor.
Qed.

Lemma sorted_length l : length (sorted k l) = length l.
Proof. symmetry. apply Permutation_length, sorted_perm. Qed.

Lemma insert_by_sorted x l :
  StronglySorted (fun a b => key_le (k a) (k b)) l ->
  StronglySorted (fun a b => key_le (k a) (k b)) (insert_by k x l).
Proof.
  induction 1 as [|y r Hr IH Hy]; simpl.
  - repeat constructor.
  - destruct (key_lt (k y) (k x)) eqn:E.
    + constructor; [exact IH|].
      rewrite List.Forall_forall in *. intros z Hz.
      apply (Permutation_in _ (Permutation_sym (insert_by_perm x r))) in Hz.
      destruct Hz as [<-|Hz]; [now apply key_lt_le | now apply Hy].
    + constructor; [now constructor|].
      constructor; [exact E|].
      rewrite List.Forall_forall in *. intros z Hz.
      apply key_le_trans with (k y); [exact E | now apply Hy].
Qed.

Lemma sorted_sorted l : StronglySorted (fun a b => key_le (k a) (k b)) (sorted k l).
Proof.
  induction l as [|x r IH]; simpl; [constructor | now apply insert_by_sorted].
Qed.

(** Insertion keeps the input order among the elements of one key. *)
Lemma filter_insert_by p x l :
  List.filter (fun a => key_eqb (k a) p) (insert_by k x l)
  = List.filter (fun a => key_eqb (k a) p) (x :: l).
Proof.
  induction l as [|y r IH]; [reflexivity|].
  simpl insert_by. destruct (key_lt (k y) (k x)) eqn:E; [|reflexivity].
  pose proof (key_lt_neq _ _ p E) as Hn.
  cbn [List.filter] in *. rewrite IH.
  destruct (key_eqb (k y) p), (key_eqb (k x) p); simpl in Hn; congruence.
Qed.

Lemma sorted_stable p l :
  List.filter (fun a => key_eqb (k a) p) (sorted k l)
  = List.filter (fun a => key_eqb (k a) p) l.
Proof.
  induction l as [|x r IH]; [reflexivity|].
  simpl sorted. rewrite filter_insert_by. cbn [List.filter]. now rewrite IH.
Qed.

Lemma insert_by_app_int x l1 l2 :
  has_int k x = true -> Forall (fun a => no_int k a = true) l2 ->
  insert_by k x (l1 ++ l2) = insert_by k x l1 ++ l2.
Proof.
  intros Hx Hl2. induction l1 as [|y r IH]; simpl.
  - destruct l2 as [|z l2]; [reflexivity|]. simpl.
    inversion Hl2 as [|? ? Hz _]; subst. unfold no_int in Hz. apply key_eqb_eq in Hz.
    rewrite Hz. reflexivity.
  - destruct (key_lt (k y) (k x)); [now rewrite IH | reflexivity].
Qed.

Lemma insert_by_app_inf x l1 l2 :
  no_int k x = true -> Forall (fun a => has_int k a = true) l1 ->
  insert_by k x (l1 ++ l2) = l1 ++ insert_by k x l2.
Proof.
  intros Hx Hl1. unfold no_int in Hx. apply key_eqb_eq in Hx.
  induction Hl1 as [|y r Hy _ IH]; [reflexivity|]. simpl.
  rewrite Hx. unfold has_int in Hy.
  destruct (k y) eqn:Ey; simpl in *; [now rewrite IH | discriminate].
Qed.

Lemma insert_by_inf_head x l :
  no_int k x = true -> Forall (fun a => no_int k a = true) l -> insert_by k x l = x :: l.
Proof.
  intros Hx Hl. destruct l as [|y r]; [reflexivity|]. simpl.
  unfold no_int in Hx. apply key_eqb_eq in Hx. rewrite Hx.
  inversion Hl as [|? ? Hy _]; subst. unfold no_int in Hy.
  apply key_eqb_eq in Hy. now rewrite Hy.
Qed.

Lemma Forall_filter_true (f : A -> bool) l : Forall (fun a => f a = true) (List.filter f l).
Proof.
  rewrite List.Forall_forall. intros x Hx. now apply List.filter_In in Hx.
Qed.

Lemma Forall_sorted (P : A -> Prop) l : Forall P l -> Forall P (sorted k l).
Proof.
  rewrite !List.Forall_forall. intros HP x Hx. apply HP.
  now apply (Permutation_in _ (Permutation_sym (sorted_perm l))).
Qed.

(** Names without digits come last, in their input order. *)
Lemma sorted_split l :
  sorted k l = sorted k (List.filter (has_int k) l) ++ List.filter (no_int k) l.
Proof.
  induction l as [|x r IH]; [reflexivity|].
  simpl sorted. cbn [List.filter].
  replace (has_int k x) with (negb (no_int k x)) by reflexivity.
  destruct (no_int k x) eqn:E; simpl negb; cbv iota.
  - rewrite IH. rewrite insert_by_app_inf; [| exact E |].
    + f_equal. apply insert_by_inf_head; [exact E | apply Forall_filter_true].
    + apply Forall_sorted, Forall_filter_true.
  - simpl sorted. rewrite IH. apply insert_by_app_int.
    + unfold has_int. fold (no_int k x). now rewrite E.
    + apply Forall_filter_true.
Qed.

End Sorting.

(** ** Strings *)

Lemma is_space_not_word c : is_space c = true -> is_word c = false.
Proof.
  destruct c as [b0 b1 b2 b3 b4 b5 b6 b7].
  destruct b0, b1, b2, b3, b4, b5, b6, b7; vm_compute; congruence.
Qed.

Lemma re_sub_nonword_lstrip s : re_sub_nonword (lstrip s) = re_sub_nonword s.
Proof.
  induction s as [|c r IH]; [reflexivity|]. simpl.
  destruct (is_space c) eqn:E; [|reflexivity].
  now rewrite (is_space_not_word _ E).
Qed.

Lemma re_sub_nonword_rstrip s : re_sub_nonword (rstrip s) = re_sub_nonword s.
Proof.
  induction s as [|c r IH]; [reflexivity|]. simpl.
  destruct (rstrip r) as [|c' r'] eqn:Er.
  - simpl in IH. rewrite <- IH.
    destruct (is_space c) eqn:E; [|reflexivity].
    now rewrite (is_space_not_word _ E).
  - cbn [re_sub_nonword] in *. now rewrite IH.
Qed.

(** Whitespace is not a word character: [strip] before the substitution
    changes nothing. *)
Lemma re_sub_nonword_strip s : re_sub_nonword (strip s) = re_sub_nonword s.
Proof. unfold strip. now rewrite re_sub_nonword_rstrip, re_sub_nonword_lstrip. Qed.

Lemma re_sub_nonword_word s :
  Forall (fun c => is_word c = true) (String.list_ascii_of_string (re_sub_nonword s)).
Proof.
  induction s as [|c r IH]; simpl; [constructor|].
  destruct (is_word c) eqn:E; [|exact IH]. simpl. now constructor.
Qed.

(** ** The loops *)

Section Loops.
Context `{AudioPort}.

Lemma progress_run v w : progress v w = (Ok tt, World (sink w ++ [v]) (tmp w)).
Proof. reflexivity. Qed.

Lemma seqZ_S (i : Z) (n : nat) : seqZ i (Z.of_nat (S n)) = i :: seqZ (i + 1) (Z.of_nat n).
Proof.
  rewrite seqZ_cons by lia. f_equal. f_equal; lia.
Qed.

Lemma cut_loop_run lines suffix total chunks : forall i zf w,
  cut_loop lines suffix total i chunks zf w
  = (Ok (zf ++ zip_with (fun j c => (chunk_name lines suffix j, silent 150 ++ c ++ silent 150))
                        (seqZ i (Z.of_nat (length chunks))) chunks),
     World (sink w ++ map (fun j => pct j total 100) (seqZ i (Z.of_nat (length chunks))))
           (tmp w)).
Proof.
  induction chunks as [|c r IH]; intros i zf w.
  - simpl. unfold ret. rewrite !app_nil_r. now destruct w.
  - cbn [cut_loop]. erewrite bind_ok by apply progress_run.
    rewrite IH. cbn [length]. rewrite seqZ_S. cbn [zip_with map sink tmp].
    now rewrite <- !app_assoc.
Qed.

Lemma write_rows_run files total rows : forall i buf w,
  1 <= i -> (Z.to_nat (i - 1) + length rows <= length files)%nat ->
  write_rows files total i rows buf w
  = (Ok (buf ++ zip_with (fun row f => row ++ [sound_field f]) rows
                         (drop (Z.to_nat (i - 1)) files)),
     World (sink w ++ map (fun j => pct j total 100) (seqZ i (Z.of_nat (length rows))))
           (tmp w)).
Proof.
  induction rows as [|row r IH]; intros i buf w Hi Hlen.
  - simpl. unfold ret. rewrite !app_nil_r. now destruct w.
  - cbn [write_rows length] in *.
    destruct (files !! Z.to_nat (i - 1)) as [f|] eqn:Ef.
    2:{ apply lookup_ge_None in Ef. lia. }
    erewrite bind_ok by reflexivity.
    erewrite bind_ok by apply progress_run.
    rewrite IH by lia.
    rewrite (drop_S _ _ _ Ef). rewrite seqZ_S. cbn [zip_with map sink tmp].
    replace (Z.to_nat (i + 1 - 1)) with (S (Z.to_nat (i - 1))) by lia.
    now rewrite <- !app_assoc.
Qed.

Lemma load_loop_ok total files : forall sounds i segments w,
  Forall2 (fun f s => from_file (read f) = Some s) files sounds ->
  load_loop total i files segments w
  = (Ok (segments ++ map trim sounds),
     World (sink w ++ map (fun j => pct j total 50) (seqZ i (Z.of_nat (length files))))
           (tmp w)).
Proof.
  induction files as [|f r IH]; intros sounds i segments w HF.
  - inversion HF; subst. simpl. unfold ret. rewrite !app_nil_r. now destruct w.
  - inversion HF as [|? s ? ss Hf Hr]; subst. cbn [load_loop].
    rewrite Hf. erewrite bind_ok by reflexivity.
    erewrite bind_ok by apply progress_run.
    rewrite (IH ss) by assumption. cbn [length]. rewrite seqZ_S.
    cbn [map sink tmp]. now rewrite <- !app_assoc.
Qed.

Lemma load_loop_raise total pre f post : forall sounds i segments w,
  Forall2 (fun f s => from_file (read f) = Some s) pre sounds ->
  from_file (read f) = None ->
  load_loop total i (pre ++ f :: post) segments w
  = (Raise CouldntDecodeError,
     World (sink w ++ map (fun j => pct j total 50) (seqZ i (Z.of_nat (length pre))))
           (tmp w)).
Proof.
  induction pre as [|g r IH]; intros sounds i segments w HF Hf.
  - simpl. rewrite Hf. rewrite app_nil_r. now destruct w.
  - inversion HF as [|? s ? ss Hg Hr]; subst. cbn [load_loop app].
    rewrite Hg. erewrite bind_ok by reflexivity.
    erewrite bind_ok by apply progress_run.
    rewrite (IH ss) by assumption. cbn [length]. rewrite seqZ_S.
    cbn [map sink tmp]. now rewrite <- !app_assoc.
Qed.

Lemma concat_loop_run mode total segments : forall i combined w,
  concat_loop mode total i segments combined w
  = (Ok (combined ++ concat (map (fun seg => seg ++ filler mode seg) segments)),
     World (sink w ++ map (fun j => 50 + pct j total 50)
                          (seqZ i (Z.of_nat (length segments))))
           (tmp w)).
Proof.
  induction segments as [|seg r IH]; intros i combined w.
  - simpl. unfold ret. rewrite !app_nil_r. now destruct w.
  - cbn [concat_loop]. erewrite bind_ok by apply progress_run.
    rewrite IH. cbn [length]. rewrite seqZ_S. cbn [map concat sink tmp].
    now rewrite <- !app_assoc.
Qed.

(** Every list of files splits into a decodable prefix and, unless all
    decode, a first file that does not. *)
Lemma decode_split (files : list InMemoryFile) :
  (exists sounds, Forall2 (fun f s => from_file (read f) = Some s) files sounds)
  \/ (exists pre f post sounds,
        files = pre ++ f :: post
        /\ Forall2 (fun f s => from_file (read f) = Some s) pre sounds
        /\ from_file (read f) = None).
Proof.
  induction files as [|f r IH].
  - left. exists []. constructor.
  - destruct (from_file (read f)) as [s|] eqn:Ef.
    + destruct IH as [[ss Hss] | (pre & g & post & ss & -> & Hss & Hg)].
      * left. exists (s :: ss). now constructor.
      * right. exists (f :: pre), g, post, (s :: ss). repeat split; [now constructor | exact Hg].
    + right. exists [], f, r, []. repeat split; [constructor | exact Ef].
Qed.

End Loops.

(** ** The operations, run to completion *)

Section Operations.
Context `{AudioPort}.

Lemma cut_audio_run sound lines suffix w :
  let chunks := split_on_silence sound 1000 (-50) 150 in
  let n := Z.of_nat (length chunks) in
  cut_audio sound lines suffix w
  = (Ok (zip_with (fun j c => (chunk_name lines suffix j, silent 150 ++ c ++ silent 150))
                  (seqZ 1 n) chunks),
     World (sink w ++ map (fun j => pct j n 100) (seqZ 1 n)) (tmp w)).
Proof. intros chunks n. unfold cut_audio. cbv zeta. now rewrite cut_loop_run. Qed.

Lemma generate_anki_csv_ok rows files w :
  length rows = length files ->
  generate_anki_csv rows files w
  = (Ok (zip_with (fun row f => row ++ [sound_field f]) rows (sorted key files)),
     World (sink w ++ map (fun j => pct j (Z.of_nat (length rows)) 100)
                          (seqZ 1 (Z.of_nat (length rows))))
           (tmp w)).
Proof.
  intros Hlen. unfold generate_anki_csv. cbv zeta.
  rewrite sorted_length. rewrite <- Hlen, Nat.eqb_refl. unfold negb.
  rewrite write_rows_run; [reflexivity | lia |].
  rewrite sorted_length. simpl. lia.
Qed.

Lemma generate_anki_csv_mismatch rows files w :
  length rows <> length files ->
  generate_anki_csv rows files w
  = (Raise (ValueError (mismatch_message (length rows) (length files))), w).
Proof.
  intros Hlen. unfold generate_anki_csv. cbv zeta. rewrite sorted_length.
  apply Nat.eqb_neq in Hlen. now rewrite Hlen.
Qed.

(** The composition the second loop builds from the trimmed segments. *)
Lemma join_audio_ok files mode sounds w :
  Forall2 (fun f s => from_file (read f) = Some s) (sorted key files) sounds ->
  let n := Z.of_nat (length files) in
  join_audio files mode w
  = (Ok (finish mode (concat (map (fun seg => seg ++ filler mode seg) (map trim sounds)))),
     World (sink w ++ map (fun j => pct j n 50) (seqZ 1 n)
                   ++ map (fun j => 50 + pct j n 50) (seqZ 1 n))
           (tmp w)).
Proof.
  intros HF n. unfold join_audio. cbv zeta.
  erewrite bind_ok by (apply load_loop_ok; exact HF).
  erewrite bind_ok by apply concat_loop_run.
  unfold ret, empty. cbn [app sink tmp].
  rewrite length_map. rewrite <- (Forall2_length _ _ _ HF), !sorted_length.
  now rewrite <- app_assoc.
Qed.

Lemma join_audio_raise files mode pre f post sounds w :
  sorted key files = pre ++ f :: post ->
  Forall2 (fun f s => from_file (read f) = Some s) pre sounds ->
  from_file (read f) = None ->
  join_audio files mode w
  = (Raise CouldntDecodeError,
     World (sink w ++ map (fun j => pct j (Z.of_nat (length files)) 50)
                          (seqZ 1 (Z.of_nat (length pre))))
           (tmp w)).
Proof.
  intros Hs HF Hf. unfold join_audio. cbv zeta. rewrite Hs.
  erewrite bind_raise by (eapply load_loop_raise; eassumption).
  rewrite <- Hs, sorted_length. reflexivity.
Qed.

End Operations.

(** ** The sort key *)

Lemma append_String c s t : String c s +:+ t = String c (s +:+ t).
Proof. reflexivity. Qed.

Lemma append_Empty t : EmptyString +:+ t = t.
Proof. reflexivity. Qed.

Lemma take_digits_split s :
  exists post, s = take_digits s +:+ post
               /\ all_digits (take_digits s) = true /\ no_digit_ahead post = true.
Proof.
  induction s as [|c r (post & Hs & Hd & Hp)]; simpl.
  - exists EmptyString. auto.
  - destruct (is_decimal c) eqn:E.
    + exists post. rewrite append_String. unfold all_digits in *. simpl. rewrite E, Hd.
      repeat split; [now f_equal | exact Hp].
    + exists (String c r). rewrite append_Empty. simpl. now rewrite E.
Qed.

(** [re.search(r"(\d+)", s)] returns the first maximal run of digits. *)
Lemma re_search_digits_Some s m :
  re_search_digits s = Some m ->
  exists pre post, s = pre +:+ m +:+ post
    /\ digit_free pre = true /\ all_digits m = true /\ m <> EmptyString
    /\ no_digit_ahead post = true.
Proof.
  induction s as [|c r IH]; simpl; [discriminate|].
  destruct (is_decimal c) eqn:E.
  - intros [= <-]. destruct (take_digits_split r) as (post & Hs & Hd & Hp).
    exists EmptyString, post. rewrite append_Empty, append_String.
    unfold all_digits in *. simpl. rewrite E, Hd.
    repeat split; [now f_equal | discriminate | exact Hp].
  - intros Hm. destruct (IH Hm) as (pre & post & -> & Hpre & Hd & Hne & Hp).
    exists (String c pre), post. rewrite append_String.
    unfold digit_free in *. simpl. rewrite E, Hpre. auto.
Qed.

Lemma re_search_digits_None s : re_search_digits s = None <-> digit_free s = true.
Proof.
  unfold digit_free. induction s as [|c r IH]; simpl; [tauto|].
  destruct (is_decimal c); simpl; [split; discriminate | exact IH].
Qed.

Lemma key_of_name_spec n :
  (exists pre m post, n = pre +:+ m +:+ post
      /\ digit_free pre = true /\ all_digits m = true /\ m <> EmptyString
      /\ no_digit_ahead post = true /\ key_of_name n = KInt (int_of_str m))
  \/ (digit_free n = true /\ key_of_name n = KInf).
Proof.
  unfold key_of_name. destruct (re_search_digits n) as [m|] eqn:E.
  - left. destruct (re_search_digits_Some _ _ E) as (pre & post & Hn & ? & ? & ? & ?).
    exists pre, m, post. repeat split; assumption.
  - right. split; [now apply re_search_digits_None | reflexivity].
Qed.

(** C1. Both [join_audio] and [generate_anki_csv] order the files with
    [sorted(files, key=key)], where the key is the integer value of the
    first run of digits in the name and infinity for a name without
    digits.  The result is a permutation of the input, non-decreasing
    in the key, keeps the input order among files of equal key (the
    sort is stable), and puts the names without digits last; the rows
    of the pairing and the composition are built in that order;
    ["10-b"; "2-a"; "bare"] sorts to ["2-a"; "10-b"; "bare"]. *)
Theorem numeric_order_of_files `{AudioPort} (files : list InMemoryFile) :
  let out := sorted key files in
  (forall f, (exists pre m post, name f = pre +:+ m +:+ post
                 /\ digit_free pre = true /\ all_digits m = true /\ m <> EmptyString
                 /\ no_digit_ahead post = true /\ key f = KInt (int_of_str m))
             \/ (digit_free (name f) = true /\ key f = KInf))
  /\ Permutation files out
  /\ StronglySorted (fun a b => key_le (key a) (key b)) out
  /\ (forall p, List.filter (fun f => key_eqb (key f) p) out
                = List.filter (fun f => key_eqb (key f) p) files)
  /\ out = sorted key (List.filter (has_int key) files) ++ List.filter (no_int key) files
  /\ (forall rows w,
        match fst (generate_anki_csv rows files w) with
        | Ok res => res = zip_with (fun row f => row ++ [sound_field f]) rows out
        | Raise _ => True
        end)
  /\ (forall mode w,
        match fst (join_audio files mode w) with
        | Ok c => exists sounds,
            Forall2 (fun f s => from_file (read f) = Some s) out sounds
            /\ c = finish mode (concat (map (fun seg => seg ++ filler mode seg)
                                            (map trim sounds)))
        | Raise _ => True
        end)
  /\ map name (sorted key [file "10-b"; file "2-a"; file "bare"]) = ["2-a"; "10-b"; "bare"].
Proof.
  intros out. repeat split.
  - intros f. apply key_of_name_spec.
  - apply sorted_perm.
  - apply sorted_sorted.
  - intros p. apply sorted_stable.
  - apply sorted_split.
  - intros rows w. destruct (Nat.eq_dec (length rows) (length files)) as [E|E].
    + now rewrite generate_anki_csv_ok.
    + now rewrite generate_anki_csv_mismatch.
  - intros mode w.
    destruct (decode_split (sorted key files))
      as [[sounds HF] | (pre & f & post & sounds & Hs & HF & Hf)].
    + rewrite (join_audio_ok _ _ _ _ HF). simpl. now exists sounds.
    + now rewrite (join_audio_raise _ _ _ _ _ _ _ Hs HF Hf).
Qed.

(** C7. When the row count differs from the file count,
    [generate_anki_csv] raises a [ValueError] whose message holds both
    counts, before anything is written or reported; when they agree it
    returns one output row per input row, in the input order, each
    being the input row followed by the [[sound:<name>]] field of the
    file at the same position of the sorted files. *)
Theorem row_pairing (rows : list (list string)) (files : list InMemoryFile) (w : world) :
  (length rows <> length files ->
     generate_anki_csv rows files w
     = (Raise (ValueError ("Row count (" +:+ str (Z.of_nat (length rows))
                           +:+ ") != file count (" +:+ str (Z.of_nat (length files))
                           +:+ ")")), w))
  /\ (length rows = length files ->
      exists out,
        returned (generate_anki_csv rows files w) = Some out
        /\ length out = length rows
        /\ forall i row, rows !! i = Some row ->
             exists f, sorted key files !! i = Some f
                       /\ out !! i = Some (row ++ ["[sound:" +:+ name f +:+ "]"])).
Proof.
  split; intros Hlen.
  - now rewrite generate_anki_csv_mismatch.
  - eexists. rewrite generate_anki_csv_ok by assumption. split; [reflexivity|].
    split.
    + apply length_zip_with_l_eq. now rewrite sorted_length.
    + intros i row Hrow.
      destruct (sorted key files !! i) as [f|] eqn:Ef.
      * exists f. split; [reflexivity|].
        rewrite lookup_zip_with, Hrow, Ef. reflexivity.
      * apply lookup_ge_None in Ef. rewrite sorted_length in Ef.
        apply lookup_lt_Some in Hrow. lia.
Qed.

Lemma row_pairing_witness :
  generate_anki_csv [["a"; "b"]; ["c"; "d"]; ["e"; "f"]] [file "2-x"; file "1-y"] world0
  = (Raise (ValueError "Row count (3) != file count (2)"), world0)
  /\ exists out,
       returned (generate_anki_csv [["a"; "b"]; ["c"; "d"]] [file "2-x"; file "1-y"] world0)
       = Some out
       /\ length out = 2%nat
       /\ forall i row, [["a"; "b"]; ["c"; "d"]] !! i = Some row ->
            exists f, sorted key [file "2-x"; file "1-y"] !! i = Some f
                      /\ out !! i = Some (row ++ ["[sound:" +:+ name f +:+ "]"]).
Proof.
  split.
  - apply (proj1 (row_pairing [["a"; "b"]; ["c"; "d"]; ["e"; "f"]]
                              [file "2-x"; file "1-y"] world0)).
    simpl. lia.
  - apply (proj2 (row_pairing [["a"; "b"]; ["c"; "d"]] [file "2-x"; file "1-y"] world0)).
    reflexivity.
Defined.

(** ** Slices *)

Lemma len_nonneg (seg : AudioSegment) : 0 <= len seg.
Proof. unfold len. lia. Qed.

Lemma len_app (a b : AudioSegment) : len (a ++ b) = len a + len b.
Proof. unfold len. rewrite length_app. lia. Qed.

Lemma len_slice (seg : AudioSegment) a b :
  0 <= a -> a <= b -> b <= len seg -> len (slice seg a b) = b - a.
Proof.
  unfold len, slice. intros Ha Hab Hb.
  rewrite length_take, length_drop. lia.
Qed.

Lemma slice_all (seg : AudioSegment) : slice seg 0 (len seg) = seg.
Proof.
  unfold slice, len. rewrite Z.sub_0_r, Nat2Z.id. simpl.
  apply take_ge. lia.
Qed.


Lemma lookup_slice (seg : AudioSegment) a b j :
  0 <= a -> 0 <= j -> j < b - a ->
  slice seg a b !! Z.to_nat j = seg !! Z.to_nat (a + j).
Proof.
  unfold slice. intros Ha Hj Hb.
  rewrite lookup_take_lt by lia. rewrite lookup_drop. f_equal. lia.
Qed.

(** ** Silence detection *)

Section Silence.
Context `{AudioPort}.

Lemma len_silent d : 0 <= d -> len (silent d) = d.
Proof. intros Hd. unfold len, silent. rewrite length_replicate. lia. Qed.


Lemma filter_sorted (p : Z -> bool) l :
  StronglySorted Z.lt l -> StronglySorted Z.lt (List.filter p l).
Proof.
  induction 1 as [|x r Hr IH Hx]; simpl; [constructor|].
  destruct (p x); [|exact IH]. constructor; [exact IH|].
  rewrite List.Forall_forall in *. intros y Hy. apply Hx.
  now apply List.filter_In in Hy.
Qed.

Lemma seqZ_sorted m n : StronglySorted Z.lt (seqZ m n).
Proof.
  destruct (Z.le_gt_cases n 0) as [Hn|Hn].
  - unfold seqZ. replace (Z.to_nat n) with 0%nat by lia. constructor.
  - rewrite <- (Z2Nat.id n) by lia. generalize (Z.to_nat n) as k. clear.
    intros k. revert m. induction k as [|k IH]; intros m.
    + constructor.
    + rewrite seqZ_S. constructor; [apply IH|].
      rewrite List.Forall_forall. intros y Hy.
      apply list_elem_of_In, elem_of_seqZ in Hy. lia.
Qed.

Lemma silence_starts_sorted seg m thresh : StronglySorted Z.lt (silence_starts seg m thresh).
Proof. apply filter_sorted, seqZ_sorted. Qed.

Lemma silence_starts_In seg m thresh i :
  In i (silence_starts seg m thresh)
  <-> 0 <= i <= len seg - m /\ rms_le thresh (samples (slice seg i (i + m))) = true.
Proof.
  unfold silence_starts, range. rewrite List.filter_In.
  rewrite <- list_elem_of_In, elem_of_seqZ. intuition lia.
Qed.

Lemma wf_ranges_weaken m lo lo' hi rs :
  lo' <= lo -> wf_ranges m lo hi rs -> wf_ranges m lo' hi rs.
Proof. destruct rs as [|[a b] rs]; simpl; intuition lia. Qed.

Lemma wf_spans_weaken m lo lo' hi ns :
  lo' <= lo -> wf_spans m lo hi ns -> wf_spans m lo' hi ns.
Proof. destruct ns as [|[s e] ns]; simpl; intuition lia. Qed.

Lemma group_ranges_wf m hi : 1 <= m -> forall starts cur prev,
  cur <= prev ->
  StronglySorted Z.lt (prev :: starts) ->
  Forall (fun x => x + m <= hi) (prev :: starts) ->
  wf_ranges m cur hi (group_ranges m cur prev starts).
Proof.
  intros Hm. induction starts as [|s rest IH]; intros cur prev Hcur Hs Hhi.
  - simpl. inversion Hhi; subst. lia.
  - inversion Hs as [|? ? Hs' Hlt]; subst. inversion Hlt as [|? ? Hps _]; subst.
    inversion Hhi as [|? ? Hp Hhi']; subst.
    cbn [group_ranges].
    destruct (negb (s =? prev + 1) && (prev + m <? s)) eqn:E.
    + apply andb_true_iff in E as [_ E]. apply Z.ltb_lt in E.
      simpl. repeat split; try lia.
      apply wf_ranges_weaken with s; [lia|]. apply IH; [lia | exact Hs' | exact Hhi'].
    + apply IH; [lia | exact Hs' | exact Hhi'].
Qed.

Lemma detect_silence_wf seg m thresh :
  1 <= m ->
  wf_ranges m 0 (len seg) (detect_silence seg m thresh).
Proof.
  intros Hm. unfold detect_silence.
  destruct (len seg <? m); [exact I|].
  pose proof (silence_starts_sorted seg m thresh) as Hs.
  assert (Hin : forall i, In i (silence_starts seg m thresh) -> 0 <= i <= len seg - m)
    by (intros i Hi; now apply silence_starts_In in Hi).
  destruct (silence_starts seg m thresh) as [|s0 rest]; [exact I|].
  apply wf_ranges_weaken with s0; [apply (Hin s0); now left|].
  apply group_ranges_wf; [exact Hm | lia | exact Hs |].
  rewrite List.Forall_forall. intros x Hx. specialize (Hin x Hx). lia.
Qed.

Lemma nonsilent_between_wf m hi : 0 <= m -> forall rs p,
  p <= hi -> wf_ranges m p hi rs -> wf_spans m p hi (nonsilent_between hi p rs).
Proof.
  intros Hm. induction rs as [|[a b] rs IH]; intros p Hp Hwf.
  - simpl. destruct (Z.eqb_spec p hi); simpl; [exact I | lia].
  - simpl in *. destruct Hwf as (Ha & Hab & Hb & Hwf).
    repeat split; try lia.
    apply wf_spans_weaken with b; [lia|].
    apply IH; [lia|]. apply wf_ranges_weaken with (b + 1); [lia | exact Hwf].
Qed.

(** The spans [detect_nonsilent] returns lie within the waveform, in
    chronological order, at least [min_silence_len] apart. *)
Lemma detect_nonsilent_wf seg m thresh :
  1 <= m -> wf_spans m 0 (len seg) (detect_nonsilent seg m thresh).
Proof.
  intros Hm. unfold detect_nonsilent. cbv zeta.
  pose proof (detect_silence_wf seg m thresh Hm) as Hwf.
  pose proof (len_nonneg seg) as HL.
  destruct (detect_silence seg m thresh) as [|[s0 e0] rs] eqn:E.
  - simpl. lia.
  - destruct ((s0 =? 0) && (e0 =? len seg)); [exact I|].
    pose proof (nonsilent_between_wf m (len seg) ltac:(lia) _ 0 HL Hwf) as Hn.
    destruct (nonsilent_between (len seg) 0 ((s0, e0) :: rs)) as [|[s e] ns]; [exact I|].
    destruct s; try exact Hn. destruct e; try exact Hn.
    simpl in Hn. apply wf_spans_weaken with (0 + m); [lia | apply Hn].
Qed.

Lemma wf_spans_lookup m hi : forall ns lo i s e,
  0 <= m -> wf_spans m lo hi ns -> ns !! i = Some (s, e) -> lo <= s /\ s <= e /\ e <= hi.
Proof.
  induction ns as [|[s' e'] ns IH]; intros lo i s e Hm Hwf Hi; [discriminate|].
  simpl in Hwf. destruct Hwf as (H1 & H2 & H3 & Hwf).
  destruct i as [|i]; simpl in Hi.
  - injection Hi as <- <-. lia.
  - destruct (IH _ _ _ _ Hm Hwf Hi). lia.
Qed.

Lemma wf_spans_last m hi : forall ns lo s e d,
  0 <= m -> wf_spans m lo hi ((s, e) :: ns) ->
  s <= snd (List.last ((s, e) :: ns) d) <= hi.
Proof.
  induction ns as [|[s' e'] ns IH]; intros lo s e d Hm Hwf.
  - simpl in *. lia.
  - destruct Hwf as (H1 & H2 & H3 & Hwf).
    change (List.last ((s, e) :: (s', e') :: ns) d) with (List.last ((s', e') :: ns) d).
    pose proof (IH _ _ _ d Hm Hwf) as Hl. simpl in Hwf. lia.
Qed.

End Silence.

(** ** [split_on_silence] and [cut_audio] *)

Section Segmenter.
Context `{AudioPort}.

Lemma meet_overlaps_apart m keep hi : 2 * keep <= m -> forall ns lo s e,
  wf_spans m lo hi ((s, e) :: ns) ->
  meet_overlaps (s - keep, e + keep) (map (fun r => (fst r - keep, snd r + keep)) ns)
  = map (fun r => (fst r - keep, snd r + keep)) ((s, e) :: ns).
Proof.
  intros Hk. induction ns as [|[s' e'] ns IH]; intros lo s e Hwf; [reflexivity|].
  destruct Hwf as (H1 & H2 & H3 & Hwf).
  cbn [map meet_overlaps fst snd].
  destruct (Z.ltb_spec (s' - keep) (e + keep)) as [Hlt|_].
  - simpl in Hwf. lia.
  - f_equal. apply (IH _ _ _ Hwf).
Qed.

(** With [2 * keep_silence <= min_silence_len] no two chunks overlap:
    every chunk is its non-silent span widened by [keep_silence] on
    both sides, cut at the ends of the waveform. *)
Lemma split_on_silence_chunks seg m thresh keep :
  1 <= m -> 2 * keep <= m ->
  split_on_silence seg m thresh keep
  = map (fun r => slice seg (Z.max (fst r - keep) 0) (Z.min (snd r + keep) (len seg)))
        (detect_nonsilent seg m thresh).
Proof.
  intros Hm Hk. unfold split_on_silence, output_ranges.
  pose proof (detect_nonsilent_wf seg m thresh Hm) as Hwf.
  destruct (detect_nonsilent seg m thresh) as [|[s e] ns]; [reflexivity|].
  cbn [map fst snd] in *.
  rewrite (meet_overlaps_apart m keep _ Hk _ _ _ _ Hwf).
  cbn [map fst snd]. f_equal. now rewrite map_map.
Qed.

Lemma all_chars_re_sub_nonword s : all_chars is_word (re_sub_nonword s) = true.
Proof.
  induction s as [|c r IH]; [reflexivity|]. simpl.
  destruct (is_word c) eqn:E; [|exact IH]. simpl. now rewrite E.
Qed.

Lemma text_line_spec lines i :
  match lines !! i with
  | Some line => text_line lines (Z.of_nat i + 1) = re_sub_nonword line
                 /\ all_chars is_word (text_line lines (Z.of_nat i + 1)) = true
  | None => text_line lines (Z.of_nat i + 1) = str (Z.of_nat i + 1)
  end.
Proof.
  unfold text_line. replace (Z.to_nat (Z.of_nat i + 1 - 1)) with i by lia.
  destruct (lines !! i) as [line|]; [|reflexivity].
  rewrite re_sub_nonword_strip. split; [reflexivity | apply all_chars_re_sub_nonword].
Qed.

Lemma cut_audio_entry sound lines suffix w i :
  let chunks := split_on_silence sound 1000 (-50) 150 in
  exists entries,
    returned (cut_audio sound lines suffix w) = Some entries
    /\ length entries = length chunks
    /\ entries !! i
       = (fun c => (chunk_name lines suffix (Z.of_nat i + 1), silent 150 ++ c ++ silent 150))
           <$> chunks !! i.
Proof.
  intros chunks. eexists. unfold returned. rewrite cut_audio_run. cbn [fst].
  split; [reflexivity|]. fold chunks. split.
  - rewrite length_zip_with_r_eq; [reflexivity|]. rewrite length_seqZ. lia.
  - rewrite lookup_zip_with.
    destruct (chunks !! i) as [c|] eqn:Ec.
    + rewrite lookup_seqZ_lt by (apply lookup_lt_Some in Ec; lia).
      simpl. do 3 f_equal. lia.
    + destruct (seqZ 1 (Z.of_nat (length chunks)) !! i); reflexivity.
Qed.

End Segmenter.

(** C3 (as the code behaves).  The name of chunk [i] (1-based) is
    ["{i}-{label}-{suffix}.mp3"].  When the transcript has a line
    [i-1], the label is that line with every non-word character
    removed, also when this leaves the label empty; only when the
    transcript has no line [i-1] the label is the decimal string of [i].
    With the lines ["Hello, World!"; ""] and suffix "X" the first two
    names are "1-HelloWorld-X.mp3" and "2--X.mp3". *)
Theorem chunk_labels `{AudioPort} (sound : AudioSegment) (lines : list string)
    (suffix : string) (w : world) :
  (exists entries,
     returned (cut_audio sound lines suffix w) = Some entries
     /\ forall i nm c, entries !! i = Some (nm, c) ->
          let j := Z.of_nat i + 1 in
          nm = str j +:+ "-" +:+ text_line lines j +:+ "-" +:+ suffix +:+ ".mp3"
          /\ match lines !! i with
             | Some line => text_line lines j = re_sub_nonword line
                            /\ all_chars is_word (text_line lines j) = true
             | None => text_line lines j = str j
             end)
  /\ map (chunk_name hello_lines "X") [1; 2] = ["1-HelloWorld-X.mp3"; "2--X.mp3"].
Proof.
  split; [|reflexivity].
  destruct (cut_audio_entry sound lines suffix w 0) as (entries & Hret & _ & _).
  exists entries. split; [exact Hret|].
  intros i nm c Hi j.
  destruct (cut_audio_entry sound lines suffix w i) as (entries' & Hret' & _ & Hlk).
  rewrite Hret in Hret'. injection Hret' as <-.
  rewrite Hi in Hlk.
  destruct (split_on_silence sound 1000 (-50) 150 !! i) as [ch|]; [|discriminate].
  injection Hlk as -> _. split; [reflexivity | apply text_line_spec].
Qed.

Lemma chunk_labels_witness :
  exists entries,
    returned (@cut_audio Pcm16 two_spans hello_lines "X" world0) = Some entries
    /\ exists nm c, entries !! 1%nat = Some (nm, c)
        /\ nm = "2--X.mp3" /\ text_line hello_lines 2 = re_sub_nonword "".
Proof.
  destruct (@chunk_labels Pcm16 two_spans hello_lines "X" world0)
    as [(entries & Hret & Hall) _].
  exists entries. split; [exact Hret|].
  assert (Hn : fst <$> entries !! 1%nat = Some "2--X.mp3"%string).
  { revert Hret. vm_compute. intros [= <-]. reflexivity. }
  destruct (entries !! 1%nat) as [[nm c]|] eqn:E; [|discriminate].
  exists nm, c. split; [reflexivity|].
  destruct (Hall 1%nat nm c E) as [_ Hl]. simpl in Hn.
  split; [congruence | apply Hl].
Defined.

(** With the lines ["Hello, World!"; ""], two detected spans and suffix
    "X", the second name is "2--X.mp3": the empty line does not fall
    back to the index. *)
Lemma empty_line_keeps_empty_label :
  option_map (map fst) (returned (@cut_audio Pcm16 two_spans hello_lines "X" world0))
  = Some ["1-HelloWorld-X.mp3"; "2--X.mp3"]
  /\ length (@detect_nonsilent Pcm16 two_spans 1000 (-50)) = 2%nat
  /\ ends_with "2-2-X" "2--X.mp3" = false
  /\ ends_with "2-2-X.mp3" "2--X.mp3" = false.
Proof. vm_compute. auto. Qed.

(** C4 (as the code behaves).  [cut_audio] produces one named chunk per
    non-silent span found with [min_silence_len=1000] and
    [silence_thresh=-50], in chronological order.  Chunk [i] is the
    span widened by the 150 ms of kept silence on each side (cut at
    the ends of the recording) between two pads of 150 ms: it is 300 ms
    longer than the chunk [split_on_silence] returns, hence between
    300 and 600 ms longer than the raw span. *)
Theorem segmenter_chunks `{AudioPort} (sound : AudioSegment) (lines : list string)
    (suffix : string) (w : world) :
  let spans := detect_nonsilent sound 1000 (-50) in
  exists entries,
    returned (cut_audio sound lines suffix w) = Some entries
    /\ length entries = length spans
    /\ wf_spans 1000 0 (len sound) spans
    /\ forall i s e, spans !! i = Some (s, e) ->
         let start := Z.max (s - 150) 0 in
         let stop := Z.min (e + 150) (len sound) in
         let chunk := silent 150 ++ slice sound start stop ++ silent 150 in
         entries !! i = Some (chunk_name lines suffix (Z.of_nat i + 1), chunk)
         /\ len chunk = (stop - start) + 2 * 150
         /\ (e - s) + 2 * 150 <= len chunk <= (e - s) + 4 * 150.
Proof.
  intros spans.
  pose proof (detect_nonsilent_wf sound 1000 (-50) ltac:(lia)) as Hwf. fold spans in Hwf.
  destruct (cut_audio_entry sound lines suffix w 0) as (entries & Hret & Hlen & _).
  exists entries. split; [exact Hret|].
  rewrite split_on_silence_chunks in Hlen by lia. rewrite length_map in Hlen.
  split; [exact Hlen|]. split; [exact Hwf|].
  intros i s e Hi start stop chunk.
  destruct (cut_audio_entry sound lines suffix w i) as (entries' & Hret' & _ & Hlk).
  rewrite Hret in Hret'. injection Hret' as <-.
  rewrite split_on_silence_chunks in Hlk by lia.
  rewrite list_lookup_fmap in Hlk. fold spans in Hlk. rewrite Hi in Hlk.
  cbn [fmap option_fmap option_map fst snd] in Hlk.
  destruct (wf_spans_lookup 1000 _ _ _ _ _ _ ltac:(lia) Hwf Hi) as (Hs & Hse & He).
  pose proof (len_nonneg sound) as HL.
  assert (Hc : len chunk = stop - start + 2 * 150).
  { unfold chunk. rewrite !len_app, !len_silent by lia.
    rewrite len_slice by (unfold start, stop; lia). lia. }
  split; [exact Hlk|]. split; [exact Hc|]. rewrite Hc. unfold start, stop. lia.
Qed.

Lemma segmenter_chunks_witness :
  exists entries,
    returned (@cut_audio Pcm16 one_span [] "X" world0) = Some entries
    /\ exists nm c, entries !! 0%nat = Some (nm, c) /\ len c = 155 + 2 * 150.
Proof.
  destruct (@segmenter_chunks Pcm16 one_span [] "X" world0)
    as (entries & Hret & _ & _ & Hall).
  exists entries. split; [exact Hret|].
  assert (Hsp : @detect_nonsilent Pcm16 one_span 1000 (-50) !! 0%nat = Some (0, 5))
    by (vm_compute; reflexivity).
  destruct (Hall 0%nat 0 5 Hsp) as (Hlk & Hlen & _).
  eexists _, _. split; [exact Hlk|]. rewrite Hlen. reflexivity.
Defined.

(** A span of 5 ms followed by silence gives a chunk of 455 ms: 450 ms
    longer than the span, not 300. *)
Lemma kept_silence_lengthens_chunk :
  @detect_nonsilent Pcm16 one_span 1000 (-50) = [(0, 5)]
  /\ option_map (map (fun e => len (snd e)))
       (returned (@cut_audio Pcm16 one_span [] "X" world0)) = Some [455]
  /\ 455 <> (5 - 0) + 2 * 150.
Proof. vm_compute. repeat split; congruence. Qed.

(** C5.  The trimming of [join_audio] returns the waveform unchanged
    when [detect_nonsilent] (25 ms, -40 dBFS) finds no interval;
    otherwise it returns exactly the frames from [start] to [stop],
    where [start] is the first interval's start minus 100 and [stop]
    the last interval's end plus 100, clamped to [[0, len(sound)]]. *)
Theorem trimmer_span `{AudioPort} (sound : AudioSegment) :
  match detect_nonsilent sound 25 (-40) with
  | [] => trim sound = sound
  | (s0, e0) :: rest =>
      let start := Z.max 0 (s0 - 100) in
      let stop := Z.min (len sound) (snd (List.last ((s0, e0) :: rest) (s0, e0)) + 100) in
      0 <= start /\ start <= stop /\ stop <= len sound
      /\ len (trim sound) = stop - start
      /\ forall j, 0 <= j < stop - start ->
           trim sound !! Z.to_nat j = sound !! Z.to_nat (start + j)
  end.
Proof.
  pose proof (detect_nonsilent_wf sound 25 (-40) ltac:(lia)) as Hwf.
  unfold trim. cbv zeta.
  destruct (detect_nonsilent sound 25 (-40)) as [|[s0 e0] rest]; [reflexivity|].
  pose proof (wf_spans_last 25 _ _ _ _ _ (s0, e0) ltac:(lia) Hwf) as Hl.
  destruct Hwf as (H0 & _). pose proof (len_nonneg sound) as HL.
  cbn [fst].
  match goal with |- 0 <= ?a /\ ?a <= ?b /\ _ => set (start := a); set (stop := b) end.
  assert (0 <= start /\ start <= stop /\ stop <= len sound) as (A & B & C)
    by (unfold start, stop; lia).
  repeat split; try assumption.
  - now apply len_slice.
  - intros j Hj. apply lookup_slice; lia.
Qed.

Lemma trimmer_span_witness :
  len (@trim Pcm16 short_burst) = 250
  /\ @trim Pcm16 short_burst !! Z.to_nat 0 = short_burst !! Z.to_nat (20 + 0).
Proof.
  pose proof (@trimmer_span Pcm16 short_burst) as T.
  assert (E : @detect_nonsilent Pcm16 short_burst 25 (-40) = [(120, 170)])
    by (vm_compute; reflexivity).
  rewrite E in T. cbv zeta in T. destruct T as (_ & _ & _ & Hlen & Hj).
  split; [exact Hlen|]. apply (Hj 0). vm_compute. split; congruence.
Defined.

(** ** [join_audio] *)

Section Composer.
Context `{AudioPort}.




End Composer.





(** ** Binary64 percentages *)

Lemma round_half_even_bounds a b : 0 < b -> a / b <= round_half_even a b <= a / b + 1.
Proof.
  intros Hb. unfold round_half_even.
  destruct (2 * (a mod b) <? b); [lia|].
  destruct (b <? 2 * (a mod b)); [lia|].
  destruct (Z.even (a / b)); lia.
Qed.

Lemma round_half_even_exact q b : 0 < b -> round_half_even (q * b) b = q.
Proof.
  intros Hb. unfold round_half_even.
  rewrite Z.div_mul, Z.mod_mul by lia.
  destruct (Z.ltb_spec (2 * 0) b); [reflexivity | lia].
Qed.

Lemma round_half_even_mono a b c d :
  0 < b -> 0 < d -> a * d <= c * b -> round_half_even a b <= round_half_even c d.
Proof.
  intros Hb Hd Hle.
  pose proof (Z.div_mod a b ltac:(lia)) as Ea.
  pose proof (Z.div_mod c d ltac:(lia)) as Ec.
  pose proof (Z.mod_pos_bound a b Hb) as Ra.
  pose proof (Z.mod_pos_bound c d Hd) as Rc.
  pose proof (round_half_even_bounds a b Hb) as Ba.
  pose proof (round_half_even_bounds c d Hd) as Bc.
  assert (Hq : a / b <= c / d).
  { apply Z.lt_succ_r. apply Z.mul_lt_mono_pos_l with (b * d); [nia|]. nia. }
  destruct (Z.eq_dec (a / b) (c / d)) as [Eq|Nq]; [|lia].
  assert (Hr : (a mod b) * d <= (c mod d) * b) by nia.
  unfold round_half_even in *. rewrite <- Eq in *.
  set (q := a / b) in *. set (r1 := a mod b) in *. set (r2 := c mod d) in *.
  destruct (Z.ltb_spec (2 * r1) b) as [H1|H1].
  - destruct (2 * r2 <? d); [lia|]. destruct (d <? 2 * r2); [lia|].
    destruct (Z.even q); lia.
  - destruct (Z.ltb_spec (2 * r2) d) as [H2|H2]; [nia|].
    destruct (Z.ltb_spec b (2 * r1)) as [H3|H3].
    + destruct (Z.ltb_spec d (2 * r2)) as [H4|H4]; [lia | nia].
    + destruct (Z.ltb_spec d (2 * r2)) as [H4|H4]; [destruct (Z.even q); lia | lia].
Qed.

Lemma float_shift_spec n d :
  0 < n -> 0 < d -> n < 2 ^ 52 * d ->
  0 <= float_shift n d
  /\ 2 ^ 52 * d <= n * 2 ^ float_shift n d
  /\ n * 2 ^ float_shift n d < 2 ^ 53 * d.
Proof.
  intros Hn Hd Hlt. unfold float_shift.
  destruct (Z.log2_spec n Hn) as [Hn1 Hn2].
  destruct (Z.log2_spec d Hd) as [Hd1 Hd2].
  pose proof (Z.log2_nonneg n) as Ha. pose proof (Z.log2_nonneg d) as Hb.
  set (a := Z.log2 n) in *. set (b := Z.log2 d) in *.
  assert (Ht : 0 <= 52 - (a - b)).
  { assert (2 ^ a < 2 ^ (53 + b)).
    { rewrite Z.pow_add_r by lia. rewrite Z.pow_succ_r in Hd2 by lia.
      change (2 ^ 53) with (2 * 2 ^ 52). nia. }
    apply Z.pow_lt_mono_r_iff in H; lia. }
  set (t := 52 - (a - b)) in *.
  assert (HAT : 2 ^ a * 2 ^ t = 2 ^ 52 * 2 ^ b).
  { rewrite <- !Z.pow_add_r by lia. f_equal. unfold t. lia. }
  rewrite Z.pow_succ_r in Hn2, Hd2 by lia.
  assert (HT : 0 < 2 ^ t) by (apply Z.pow_pos_nonneg; lia).
  assert (HP : 0 < 2 ^ 52) by reflexivity.
  change (2 ^ 53) with (2 * 2 ^ 52).
  assert (HT1 : 2 ^ (t + 1) = 2 * 2 ^ t).
  { rewrite Z.pow_add_r by lia. change (2 ^ 1) with 2. lia. }
  destruct (Z.leb_spec (2 ^ 52 * d) (n * 2 ^ t)) as [Hc|Hc].
  - generalize dependent (2 ^ 52). generalize dependent (2 ^ t).
    generalize dependent (2 ^ a). generalize dependent (2 ^ b).
    intros. repeat split; [lia | lia | nia].
  - rewrite HT1.
    generalize dependent (2 ^ 52). generalize dependent (2 ^ t).
    generalize dependent (2 ^ a). generalize dependent (2 ^ b).
    intros. repeat split; [lia | nia | nia].
Qed.

Lemma float_div_spec n d :
  0 < n -> 0 < d -> n < 2 ^ 52 * d ->
  float_div n d = Dy (round_half_even (n * 2 ^ float_shift n d) d) (float_shift n d)
  /\ 0 <= shift (float_div n d)
  /\ 2 ^ 52 <= mant (float_div n d) <= 2 ^ 53.
Proof.
  intros Hn Hd Hlt. destruct (float_shift_spec n d Hn Hd Hlt) as (Hk & Hlo & Hhi).
  unfold float_div. destruct (Z.eqb_spec n 0) as [->|_]; [lia|].
  split; [reflexivity|]. cbn [shift mant]. split; [exact Hk|].
  pose proof (round_half_even_bounds (n * 2 ^ float_shift n d) d Hd) as Hb.
  assert (2 ^ 52 <= n * 2 ^ float_shift n d / d) by (apply Z.div_le_lower_bound; lia).
  assert (n * 2 ^ float_shift n d / d < 2 ^ 53) by (apply Z.div_lt_upper_bound; lia).
  lia.
Qed.

Lemma float_div_mono n1 d1 n2 d2 :
  0 < n1 -> 0 < d1 -> 0 < n2 -> 0 < d2 ->
  n1 * d2 <= n2 * d1 -> n2 < 2 ^ 52 * d2 ->
  dy_le (float_div n1 d1) (float_div n2 d2).
Proof.
  intros Hn1 Hd1 Hn2 Hd2 Hle Hlt2.
  assert (Hlt1 : n1 < 2 ^ 52 * d1).
  { apply Z.mul_lt_mono_pos_r with d2; [lia|]. nia. }
  destruct (float_shift_spec n1 d1 Hn1 Hd1 Hlt1) as (Hk1 & Hlo1 & Hhi1).
  destruct (float_shift_spec n2 d2 Hn2 Hd2 Hlt2) as (Hk2 & Hlo2 & Hhi2).
  destruct (float_div_spec n1 d1 Hn1 Hd1 Hlt1) as (E1 & _ & Hm1).
  destruct (float_div_spec n2 d2 Hn2 Hd2 Hlt2) as (E2 & _ & Hm2).
  rewrite E1, E2 in *. cbn [mant shift] in *. unfold dy_le. cbn [mant shift].
  set (k1 := float_shift n1 d1) in *. set (k2 := float_shift n2 d2) in *.
  assert (Hk : k2 <= k1).
  { destruct (Z.le_gt_cases k2 k1) as [|Hgt]; [assumption|]. exfalso.
    assert (E : 2 ^ k2 = 2 ^ k1 * 2 ^ (k2 - k1)).
    { rewrite <- Z.pow_add_r by lia. f_equal. lia. }
    assert (2 <= 2 ^ (k2 - k1)).
    { change 2 with (2 ^ 1) at 1. apply Z.pow_le_mono_r; lia. }
    rewrite E in Hhi2. change (2 ^ 53) with (2 * 2 ^ 52) in *.
    assert (0 < 2 ^ k1) by (apply Z.pow_pos_nonneg; lia).
    assert (0 < 2 ^ 52) by reflexivity.
    set (P := 2 ^ 52) in *. set (K := 2 ^ k1) in *. set (G := 2 ^ (k2 - k1)) in *.
    assert (S1 : P * d1 * d2 * G <= n1 * K * d2 * G).
    { apply Z.mul_le_mono_nonneg_r; [lia|]. apply Z.mul_le_mono_nonneg_r; lia. }
    assert (S2 : n1 * K * d2 * G <= n2 * d1 * K * G).
    { replace (n1 * K * d2 * G) with (n1 * d2 * (K * G)) by ring.
      replace (n2 * d1 * K * G) with (n2 * d1 * (K * G)) by ring.
      apply Z.mul_le_mono_nonneg_r; [nia | lia]. }
    assert (S3 : n2 * d1 * K * G < 2 * P * d2 * d1).
    { replace (n2 * d1 * K * G) with (n2 * (K * G) * d1) by ring.
      apply Z.mul_lt_mono_pos_r; lia. }
    assert (S4 : 2 * (P * d1 * d2) <= P * d1 * d2 * G).
    { rewrite (Z.mul_comm 2). apply Z.mul_le_mono_nonneg_l; [nia | lia]. }
    lia. }
  destruct (Z.eq_dec k1 k2) as [Ek|Nk].
  - assert (EK : 2 ^ k2 = 2 ^ k1) by (f_equal; lia). rewrite EK.
    apply Z.mul_le_mono_nonneg_r; [apply Z.pow_nonneg; lia|].
    apply round_half_even_mono; try lia.
    assert (0 < 2 ^ k1) by (apply Z.pow_pos_nonneg; lia).
    replace (n1 * 2 ^ k1 * d2) with (n1 * d2 * 2 ^ k1) by ring.
    replace (n2 * 2 ^ k1 * d1) with (n2 * d1 * 2 ^ k1) by ring.
    apply Z.mul_le_mono_nonneg_r; lia.
  - assert (E : 2 ^ k1 = 2 ^ k2 * 2 ^ (k1 - k2)).
    { rewrite <- Z.pow_add_r by lia. f_equal. lia. }
    assert (2 <= 2 ^ (k1 - k2)).
    { change 2 with (2 ^ 1) at 1. apply Z.pow_le_mono_r; lia. }
    set (m1 := round_half_even (n1 * 2 ^ k1) d1) in *.
    set (m2 := round_half_even (n2 * 2 ^ k2) d2) in *.
    rewrite E. change (2 ^ 53) with (2 * 2 ^ 52) in *.
    assert (0 < 2 ^ k2) by (apply Z.pow_pos_nonneg; lia).
    assert (0 < 2 ^ 52) by reflexivity.
    set (P := 2 ^ 52) in *. set (K := 2 ^ k2) in *. set (G := 2 ^ (k1 - k2)) in *.
    apply Z.le_trans with (2 * P * K); [apply Z.mul_le_mono_nonneg_r; lia|].
    replace (2 * P * K) with (P * (K * 2)) by ring.
    apply Z.mul_le_mono_nonneg; try lia.
    apply Z.mul_le_mono_nonneg_l; lia.
Qed.

Lemma float_div_same n : 0 < n -> float_div n n = Dy (2 ^ 52) 52.
Proof.
  intros Hn. unfold float_div, float_shift.
  destruct (Z.eqb_spec n 0) as [->|_]; [lia|].
  rewrite Z.sub_diag, Z.sub_0_r.
  destruct (Z.leb_spec (2 ^ 52 * n) (n * 2 ^ 52)) as [_|Hc]; [|lia].
  f_equal. rewrite (Z.mul_comm n). now apply round_half_even_exact.
Qed.

Lemma float_int_mono x y :
  0 <= shift x -> 0 <= shift y -> dy_le x y -> float_int x <= float_int y.
Proof.
  unfold dy_le, float_int. intros Hx Hy Hle.
  assert (0 < 2 ^ shift x) by (apply Z.pow_pos_nonneg; lia).
  assert (0 < 2 ^ shift y) by (apply Z.pow_pos_nonneg; lia).
  rewrite <- (Z.div_mul_cancel_r (mant x) (2 ^ shift x) (2 ^ shift y)) by lia.
  rewrite <- (Z.div_mul_cancel_r (mant y) (2 ^ shift y) (2 ^ shift x)) by lia.
  rewrite (Z.mul_comm (2 ^ shift y) (2 ^ shift x)).
  apply Z.div_le_mono; [lia | exact Hle].
Qed.

(** The quotient [i/total] of [1 <= i <= total] is a double in
    [(0, 1]]. *)
Lemma float_div_unit i total :
  1 <= i -> i <= total ->
  0 <= shift (float_div i total)
  /\ 0 < mant (float_div i total)
  /\ mant (float_div i total) <= 2 ^ shift (float_div i total).
Proof.
  intros Hi Ht.
  assert (Hlt : i < 2 ^ 52 * total) by (assert (1 < 2 ^ 52) by reflexivity; nia).
  destruct (float_div_spec i total ltac:(lia) ltac:(lia) Hlt) as (_ & Hk & Hm).
  assert (0 < 2 ^ 52) by reflexivity.
  repeat split; [exact Hk | lia |].
  pose proof (float_div_mono i total total total ltac:(lia) ltac:(lia) ltac:(lia) ltac:(lia)
                ltac:(nia) ltac:(nia)) as Hle.
  rewrite (float_div_same total) in Hle by lia. unfold dy_le in Hle. cbn [mant shift] in Hle.
  lia.
Qed.

Lemma float_mul_spec x c :
  0 <= shift x -> 0 < mant x -> mant x <= 2 ^ shift x -> 0 < c -> c < 2 ^ 52 ->
  0 <= shift (float_mul x c) /\ 0 < mant (float_mul x c).
Proof.
  intros Hk Hm Hle Hc Hc'. unfold float_mul.
  assert (0 < 2 ^ shift x) by (apply Z.pow_pos_nonneg; lia).
  assert (0 < 2 ^ 52) by reflexivity.
  destruct (float_div_spec (mant x * c) (2 ^ shift x)) as (_ & Hs & Hb); [nia | lia | nia |].
  split; [exact Hs | lia].
Qed.

Lemma pct_mono i j total scale :
  1 <= i -> i <= j -> j <= total -> 0 < scale -> scale < 2 ^ 52 ->
  pct i total scale <= pct j total scale.
Proof.
  intros Hi Hij Hj Hs Hs'. unfold pct.
  destruct (float_div_unit i total) as (Hki & Hmi & Hui); [lia | lia |].
  destruct (float_div_unit j total) as (Hkj & Hmj & Huj); [lia | lia |].
  destruct (float_mul_spec _ scale Hki Hmi Hui Hs Hs') as (Hsi & _).
  destruct (float_mul_spec _ scale Hkj Hmj Huj Hs Hs') as (Hsj & _).
  apply float_int_mono; [exact Hsi | exact Hsj |].
  assert (0 < 2 ^ shift (float_div i total)) by (apply Z.pow_pos_nonneg; lia).
  assert (0 < 2 ^ shift (float_div j total)) by (apply Z.pow_pos_nonneg; lia).
  assert (0 < 2 ^ 52) by reflexivity.
  assert (Hle : dy_le (float_div i total) (float_div j total)).
  { apply float_div_mono; try lia; nia. }
  unfold dy_le in Hle. unfold float_mul.
  apply float_div_mono; [nia | lia | nia | lia | | nia].
  replace (mant (float_div i total) * scale * 2 ^ shift (float_div j total))
    with (mant (float_div i total) * 2 ^ shift (float_div j total) * scale) by ring.
  replace (mant (float_div j total) * scale * 2 ^ shift (float_div i total))
    with (mant (float_div j total) * 2 ^ shift (float_div i total) * scale) by ring.
  apply Z.mul_le_mono_nonneg_r; lia.
Qed.

(** [int(total/total*scale)] is [scale]. *)
Lemma pct_full total scale :
  0 < total -> 0 < scale -> scale < 2 ^ 52 -> pct total total scale = scale.
Proof.
  intros Ht Hs Hs'. unfold pct, float_mul. rewrite float_div_same by lia.
  cbn [mant shift].
  assert (0 < 2 ^ 52) by reflexivity.
  destruct (float_div_spec (2 ^ 52 * scale) (2 ^ 52)) as (E & Hk & _);
    [lia | lia | apply Z.mul_lt_mono_pos_l; lia |].
  rewrite E in Hk |- *. unfold float_int. cbn [mant shift] in *.
  set (k := float_shift (2 ^ 52 * scale) (2 ^ 52)) in *.
  replace (2 ^ 52 * scale * 2 ^ k) with (scale * 2 ^ k * 2 ^ 52) by ring.
  rewrite round_half_even_exact by lia.
  apply Z.div_mul. assert (0 < 2 ^ k) by (apply Z.pow_pos_nonneg; lia). lia.
Qed.

Lemma pct_range i total scale :
  1 <= i -> i <= total -> 0 < scale -> scale < 2 ^ 52 ->
  0 <= pct i total scale <= scale.
Proof.
  intros Hi Ht Hs Hs'. split.
  - unfold pct. destruct (float_div_unit i total) as (Hk & Hm & Hu); [lia | lia |].
    destruct (float_mul_spec _ scale Hk Hm Hu Hs Hs') as (Hsk & Hsm).
    unfold float_int. apply Z.div_pos; [lia|]. apply Z.pow_pos_nonneg; lia.
  - rewrite <- (pct_full total scale) at 2 by lia. apply pct_mono; lia.
Qed.

Lemma map_seqZ_sorted (f : Z -> Z) lo n :
  (forall i j, lo <= i -> i <= j -> j < lo + n -> f i <= f j) ->
  StronglySorted Z.le (map f (seqZ lo n)).
Proof.
  destruct (Z.le_gt_cases n 0) as [Hn|Hn].
  - intros _. unfold seqZ. replace (Z.to_nat n) with 0%nat by lia. constructor.
  - rewrite <- (Z2Nat.id n) by lia. generalize (Z.to_nat n) as k. clear.
    intros k. revert lo. induction k as [|k IH]; intros lo Hf.
    + constructor.
    + rewrite seqZ_S. cbn [map]. constructor.
      * apply IH. intros i j ? ? ?. apply Hf; lia.
      * rewrite List.Forall_forall. intros y Hy. apply in_map_iff in Hy as (j & <- & Hj).
        apply list_elem_of_In, elem_of_seqZ in Hj. apply Hf; lia.
Qed.

(** The percentages of the first [n] of [total] units, against a range
    of [scale], are non-decreasing and lie in [[0, scale]]. *)
Lemma pct_trace total scale n :
  n <= total -> 0 < scale -> scale < 2 ^ 52 ->
  StronglySorted Z.le (map (fun j => pct j total scale) (seqZ 1 n))
  /\ Forall (fun v => 0 <= v <= scale) (map (fun j => pct j total scale) (seqZ 1 n)).
Proof.
  intros Hn Hs Hs'. split.
  - apply map_seqZ_sorted. intros i j ? ? ?. apply pct_mono; lia.
  - rewrite List.Forall_forall. intros v Hv. apply in_map_iff in Hv as (j & <- & Hj).
    apply list_elem_of_In, elem_of_seqZ in Hj. apply pct_range; lia.
Qed.

(** ** Progress traces *)

Lemma StronglySorted_app (l1 l2 : list Z) :
  StronglySorted Z.le l1 -> StronglySorted Z.le l2 ->
  Forall (fun a => Forall (fun b => a <= b) l2) l1 ->
  StronglySorted Z.le (l1 ++ l2).
Proof.
  induction 1 as [|a l1 Hl1 IH Ha]; intros H2 Hall; [exact H2|].
  inversion Hall as [|? ? Hab Hrest]; subst. cbn [app]. constructor; [now apply IH|].
  apply Forall_app. split; assumption.
Qed.

Lemma StronglySorted_shift c (l : list Z) :
  StronglySorted Z.le l -> StronglySorted Z.le (map (fun v => c + v) l).
Proof.
  induction 1 as [|a l Hl IH Ha]; cbn [map]; constructor; [exact IH|].
  rewrite List.Forall_forall in *. intros y Hy. apply in_map_iff in Hy as (x & <- & Hx).
  specialize (Ha x Hx). lia.
Qed.

Lemma valid_progress_pct total n :
  n <= total -> valid_progress (map (fun j => pct j total 100) (seqZ 1 n)).
Proof.
  intros Hn. destruct (pct_trace total 100 n Hn) as [Hs Hb]; [lia | reflexivity |].
  split; assumption.
Qed.

(** The two phases of [join_audio]: the first [n] loads, then the first
    [k] concatenations. *)
Lemma valid_progress_halves total n k :
  n <= total -> k <= total ->
  let trimming := map (fun j => pct j total 50) (seqZ 1 n) in
  let concatenating := map (fun j => 50 + pct j total 50) (seqZ 1 k) in
  valid_progress (trimming ++ concatenating)
  /\ Forall (fun a => Forall (fun b => a <= b) concatenating) trimming.
Proof.
  intros Hn Hk trimming concatenating.
  destruct (pct_trace total 50 n Hn) as [Hs1 Hb1]; [lia | reflexivity |].
  destruct (pct_trace total 50 k Hk) as [Hs2 Hb2]; [lia | reflexivity |].
  assert (Hc : concatenating = map (fun v => 50 + v) (map (fun j => pct j total 50) (seqZ 1 k)))
    by (unfold concatenating; now rewrite map_map).
  assert (Hb2' : Forall (fun v => 50 <= v <= 100) concatenating).
  { rewrite Hc. rewrite List.Forall_forall in *. intros y Hy.
    apply in_map_iff in Hy as (x & <- & Hx). specialize (Hb2 x Hx). lia. }
  assert (Hcross : Forall (fun a => Forall (fun b => a <= b) concatenating) trimming).
  { rewrite List.Forall_forall in *. intros a Ha. rewrite List.Forall_forall. intros b Hb.
    specialize (Hb1 a Ha). specialize (Hb2' b Hb). lia. }
  split; [|exact Hcross]. split.
  - apply StronglySorted_app; [exact Hs1 | | exact Hcross].
    rewrite Hc. now apply StronglySorted_shift.
  - apply Forall_app. split.
    + eapply Forall_impl; [exact Hb1|]. simpl. intros; lia.
    + eapply Forall_impl; [exact Hb2'|]. simpl. intros; lia.
Qed.

(** ** [normalize_audio], path by path *)

Section Normalizer.
Context `{AudioPort}.

Lemma normalize_audio_paths (t : tool) (input : list Byte.byte) (w : world) :
  let p1 := fresh (tmp w) in
  let p2 := fresh (tmp w ∪ {[ p1 ]}) in
  let both := tmp w ∪ {[ p1 ]} ∪ {[ p2 ]} in
  normalize_audio t input w =
  if negb (ffmpeg_found t) then (Raise StopException, w)
  else match from_file input with
       | None => (Raise CouldntDecodeError, w)
       | Some _ =>
           if negb (returncode t =? 0)
           then (Raise (CalledProcessError (returncode t)),
                 World (sink w ++ [10; 20]) both)
           else match from_wav t with
                | None => (Raise CouldntDecodeError, World (sink w ++ [10; 20; 70]) both)
                | Some norm =>
                    match export_mp3 t norm with
                    | None => (Raise CouldntEncodeError,
                               World (sink w ++ [10; 20; 70]) both)
                    | Some out_buf =>
                        (Ok out_buf,
                         World (sink w ++ [10; 20; 70; 100]) (both ∖ {[ p1 ]} ∖ {[ p2 ]}))
                    end
                end
       end.
Proof.
  intros p1 p2 both. unfold normalize_audio, setup_ffmpeg, subprocess_run.
  destruct w as [sk tm]. cbn [sink tmp] in *.
  destruct (ffmpeg_found t); [|reflexivity]. cbn [negb].
  unfold bind at 1. cbn [ret].
  destruct (from_file input) as [audio|]; [|reflexivity].
  unfold bind, lift_option, ret, raise, NamedTemporaryFile, progress, unlink.
  cbn [sink tmp]. fold p1. fold p2. fold both.
  destruct (returncode t =? 0); cbn [negb sink tmp]; [|now rewrite <- app_assoc].
  destruct (from_wav t) as [norm|]; cbn [sink tmp]; [|now rewrite <- !app_assoc].
  destruct (export_mp3 t norm) as [out|]; cbn [sink tmp]; now rewrite <- !app_assoc.
Qed.

Lemma fresh_pair (s : gset nat) :
  let p1 := fresh s in
  let p2 := fresh (s ∪ {[ p1 ]}) in
  (p1 ∉ s) /\ (p2 ∉ s) /\ p1 <> p2.
Proof.
  intros p1 p2. pose proof (is_fresh s) as H1.
  pose proof (is_fresh (s ∪ {[ p1 ]})) as H2. fold p1 in H1, H2. fold p2 in H2.
  set_solver.
Qed.

End Normalizer.

(** C10.  In every run of [cut_audio], [join_audio], [normalize_audio]
    and [generate_anki_csv], whether it returns or raises, the values
    passed to the progress sink are integers in [[0, 100]] and never
    decrease; in [join_audio] every value of the concatenation phase is
    at least every value of the trimming phase. *)
Theorem progress_reports `{AudioPort} :
  (forall sound lines suffix w, exists vs,
      sink (snd (cut_audio sound lines suffix w)) = sink w ++ vs /\ valid_progress vs)
  /\ (forall files mode w, exists trimming concatenating,
        sink (snd (join_audio files mode w)) = sink w ++ trimming ++ concatenating
        /\ valid_progress (trimming ++ concatenating)
        /\ Forall (fun a => Forall (fun b => a <= b) concatenating) trimming)
  /\ (forall t input w, exists vs,
        sink (snd (normalize_audio t input w)) = sink w ++ vs /\ valid_progress vs)
  /\ (forall rows files w, exists vs,
        sink (snd (generate_anki_csv rows files w)) = sink w ++ vs /\ valid_progress vs).
Proof.
  repeat split.
  - intros sound lines suffix w. eexists. rewrite cut_audio_run. cbn [snd sink].
    split; [reflexivity|]. apply valid_progress_pct. lia.
  - intros files mode w.
    destruct (decode_split (sorted key files))
      as [[sounds HF] | (pre & f & post & sounds & Hs & HF & Hf)].
    + eexists _, _. rewrite (join_audio_ok _ _ _ _ HF). cbn [snd sink].
      split; [reflexivity|]. apply valid_progress_halves; lia.
    + exists (map (fun j => pct j (Z.of_nat (length files)) 50)
                  (seqZ 1 (Z.of_nat (length pre)))), [].
      rewrite (join_audio_raise _ _ _ _ _ _ _ Hs HF Hf). cbn [snd sink].
      rewrite app_nil_r. split; [reflexivity|].
      assert (Hn : Z.of_nat (length pre) <= Z.of_nat (length files)).
      { rewrite <- (sorted_length key files), Hs, length_app. lia. }
      destruct (valid_progress_halves (Z.of_nat (length files)) (Z.of_nat (length pre)) 0
                  Hn ltac:(lia)) as [Hv Hc].
      cbn [seqZ map] in Hv, Hc. rewrite app_nil_r in Hv. split; assumption.
  - intros t input w. rewrite normalize_audio_paths.
    assert (V0 : valid_progress []) by (split; constructor).
    assert (V2 : valid_progress [10; 20]) by (split; repeat constructor; lia).
    assert (V3 : valid_progress [10; 20; 70]) by (split; repeat constructor; lia).
    assert (V4 : valid_progress [10; 20; 70; 100]) by (split; repeat constructor; lia).
    destruct (negb (ffmpeg_found t)).
    { exists []. now rewrite app_nil_r. }
    destruct (from_file input).
    2:{ exists []. now rewrite app_nil_r. }
    destruct (negb (returncode t =? 0)); [now eexists|].
    destruct (from_wav t) as [norm|]; [|now eexists].
    destruct (export_mp3 t norm); now eexists.
  - intros rows files w.
    destruct (Nat.eq_dec (length rows) (length files)) as [E|E].
    + eexists. rewrite generate_anki_csv_ok by assumption. cbn [snd sink].
      split; [reflexivity|]. apply valid_progress_pct. lia.
    + exists []. rewrite generate_anki_csv_mismatch by assumption.
      rewrite app_nil_r. split; [reflexivity|]. split; constructor.
Qed.

(** C8 (the code leaks).  When the loudness tool exits with a non-zero
    status, [normalize_audio] raises [CalledProcessError] after having
    created its two temporary files and before the two [os.unlink]
    calls: both files are left on disk. *)
Theorem normalizer_leaks_on_tool_failure :
  fst (@normalize_audio Pcm16 failing_tool [Byte.x80] world0)
  = Raise (CalledProcessError 1)
  /\ size (tmp (snd (@normalize_audio Pcm16 failing_tool [Byte.x80] world0))) = 2%nat
  /\ tmp (snd (@normalize_audio Pcm16 working_tool [Byte.x80] world0)) = ∅.
Proof.
  rewrite !normalize_audio_paths. cbn [fst snd tmp world0 negb failing_tool working_tool
    ffmpeg_found returncode from_wav export_mp3 from_file Pcm16 pcm16_from_file Z.eqb].
  split; [reflexivity|].
  destruct (fresh_pair (∅ : gset nat)) as (H1 & H2 & H12). cbv zeta in H2, H12.
  split.
  - rewrite !size_union by set_solver. rewrite size_empty, !size_singleton. reflexivity.
  - set_solver.
Qed.

(** ** The structure of the silent ranges

    In the ranges built from the sorted silent starts, the first range
    ends at the first start that no other start follows within
    [min_silence_len], and the last range begins at the last start that
    no other start precedes within [min_silence_len]. *)

Section Ranges.
Variable m : Z.
Hypothesis Hm : 1 <= m.










End Ranges.



Section Ends.
Context `{AudioPort}.

Lemma silence_starts_short seg m thresh : len seg < m -> silence_starts seg m thresh = [].
Proof.
  intros Hlt. destruct (silence_starts seg m thresh) as [|i l] eqn:E; [reflexivity|].
  assert (Hi : In i (silence_starts seg m thresh)) by (rewrite E; now left).
  apply silence_starts_In in Hi. lia.
Qed.

Lemma detect_silence_starts seg m thresh :
  detect_silence seg m thresh
  = match silence_starts seg m thresh with
    | [] => []
    | s0 :: rest => group_ranges m s0 s0 rest
    end.
Proof.
  unfold detect_silence. destruct (Z.ltb_spec (len seg) m) as [Hlt|_]; [|reflexivity].
  now rewrite silence_starts_short.
Qed.




End Ends.

Section Idempotence.
Context `{AudioPort}.


Lemma last_default {A} (l : list A) d d' : l <> [] -> List.last l d = List.last l d'.
Proof.
  induction l as [|x l IH]; [congruence|]. intros _.
  destruct l as [|y l']; [reflexivity|]. apply IH. discriminate.
Qed.

(** A waveform whose first non-silent span starts within the guard and
    whose last one ends within the guard of the end is left as it is. *)
Lemma trim_fixed sound :
  let nons := detect_nonsilent sound 25 (-40) in
  nons = [] \/ (fst (hd (0, 0) nons) <= 100 /\ len sound <= snd (List.last nons (0, 0)) + 100) ->
  trim sound = sound.
Proof.
  cbv zeta. unfold trim. cbv zeta.
  destruct (detect_nonsilent sound 25 (-40)) as [|first rest]; [reflexivity|].
  intros [E|[Hf Hl]]; [discriminate|].
  rewrite (last_default _ first (0, 0)) by discriminate.
  cbn [hd] in Hf.
  replace (Z.max 0 (fst first - 100)) with 0 by lia.
  replace (Z.min (len sound) (snd (List.last (first :: rest) (0, 0)) + 100))
    with (len sound) by lia.
  apply slice_all.
Qed.

End Idempotence.


(** ** Decimal strings and the key of a chunk name *)

Lemma int_digits_acc d : forall acc,
  int_digits (Z.pos acc) (NilEmpty.string_of_uint d) = Z.pos (Pos.of_uint_acc d acc).
Proof.
  induction d as [|d IH|d IH|d IH|d IH|d IH|d IH|d IH|d IH|d IH|d IH]; intros acc;
    [reflexivity | ..];
    cbn [NilEmpty.string_of_uint int_digits Pos.of_uint_acc]; rewrite <- IH; f_equal;
    unfold ord; simpl (Z.of_N _); lia.
Qed.

Lemma int_digits_uint d :
  int_digits 0 (NilEmpty.string_of_uint d) = Z.of_N (Pos.of_uint d).
Proof.
  induction d as [|d IH|d IH|d IH|d IH|d IH|d IH|d IH|d IH|d IH|d IH];
    [reflexivity | exact IH | ..];
    cbn [NilEmpty.string_of_uint int_digits Pos.of_uint Z.of_N];
    rewrite <- int_digits_acc; reflexivity.
Qed.

Lemma all_digits_uint d : all_digits (NilEmpty.string_of_uint d) = true.
Proof.
  induction d as [|d IH|d IH|d IH|d IH|d IH|d IH|d IH|d IH|d IH|d IH];
    [reflexivity | ..]; exact IH.
Qed.

Lemma str_pos p : str (Z.pos p) = NilEmpty.string_of_uint (Pos.to_uint p).
Proof.
  unfold str. cbn [Z.to_int NilZero.string_of_int]. unfold NilZero.string_of_uint.
  pose proof (Unsigned.to_uint_nonnil p) as Hn.
  destruct (Pos.to_uint p); [congruence | reflexivity ..].
Qed.

(** [int(str(i)) == i] for a non-negative [i]. *)
Lemma int_of_str_str i : 0 <= i -> int_of_str (str i) = i.
Proof.
  intros Hi. destruct i as [|p|p]; [reflexivity | | lia].
  rewrite str_pos. unfold int_of_str. rewrite int_digits_uint, Unsigned.of_to. reflexivity.
Qed.

Lemma str_digits i : 0 <= i -> all_digits (str i) = true /\ str i <> EmptyString.
Proof.
  intros Hi. destruct i as [|p|p]; [split; [reflexivity | discriminate] | | lia].
  rewrite str_pos. split; [apply all_digits_uint|].
  pose proof (Unsigned.to_uint_nonnil p) as Hn.
  destruct (Pos.to_uint p); [congruence | discriminate ..].
Qed.

Lemma take_digits_append m post :
  all_digits m = true -> no_digit_ahead post = true -> take_digits (m +:+ post) = m.
Proof.
  unfold all_digits. intros Hm Hp. induction m as [|c r IH].
  - rewrite append_Empty. destruct post as [|c r]; [reflexivity|]. simpl in *.
    now destruct (is_decimal c).
  - rewrite append_String. simpl in *. apply andb_true_iff in Hm as [Hc Hr].
    rewrite Hc. now rewrite IH.
Qed.

Lemma re_search_digits_prefix m post :
  all_digits m = true -> m <> EmptyString -> no_digit_ahead post = true ->
  re_search_digits (m +:+ post) = Some m.
Proof.
  intros Hm Hne Hp. destruct m as [|c r]; [congruence|].
  pose proof (take_digits_append _ _ Hm Hp) as Ht.
  rewrite append_String in *. unfold all_digits in Hm. simpl in Hm.
  apply andb_true_iff in Hm as [Hc _].
  cbn [re_search_digits]. rewrite Hc. now rewrite Ht.
Qed.

(** The sort key of the name given to chunk [i] is [i]. *)
Lemma key_of_chunk_name lines suffix i :
  0 <= i -> key_of_name (chunk_name lines suffix i) = KInt i.
Proof.
  intros Hi. destruct (str_digits i Hi) as [Hd Hne].
  unfold key_of_name, chunk_name.
  rewrite re_search_digits_prefix by (assumption || reflexivity).
  now rewrite int_of_str_str.
Qed.

Lemma sorted_fixed {A} (k : A -> sort_key) l :
  StronglySorted (fun a b => key_le (k a) (k b)) l -> sorted k l = l.
Proof.
  induction 1 as [|x r Hr IH Hx]; [reflexivity|].
  simpl. rewrite IH. destruct r as [|y r']; [reflexivity|]. simpl.
  inversion Hx as [|? ? Hxy _]; subst. unfold key_le in Hxy. now rewrite Hxy.
Qed.

Lemma sorted_by_int_keys {A} (k : A -> sort_key) : forall l zs,
  map k l = map KInt zs -> StronglySorted Z.le zs ->
  StronglySorted (fun a b => key_le (k a) (k b)) l.
Proof.
  induction l as [|x r IH]; intros zs Hk Hs; [constructor|].
  destruct zs as [|z zs]; [discriminate|]. injection Hk as Hx Hr.
  inversion Hs as [|? ? Hs' Hz]; subst.
  constructor; [now apply (IH zs)|].
  rewrite List.Forall_forall in *. intros y Hy.
  assert (Hky : In (k y) (map KInt zs)) by (rewrite <- Hr; now apply in_map).
  apply in_map_iff in Hky as (z' & Ez & Hz').
  unfold key_le. rewrite Hx, <- Ez. simpl. specialize (Hz _ Hz'). apply Z.ltb_ge. lia.
Qed.

Lemma seqZ_le_sorted lo n : StronglySorted Z.le (seqZ lo n).
Proof.
  rewrite <- (map_id (seqZ lo n)). apply map_seqZ_sorted. intros; lia.
Qed.

Section Archive.
Context `{AudioPort}.

Lemma cut_audio_names sound lines suffix w :
  exists entries,
    returned (cut_audio sound lines suffix w) = Some entries
    /\ map fst entries
       = map (chunk_name lines suffix) (seqZ 1 (Z.of_nat (length entries))).
Proof.
  eexists. unfold returned. rewrite cut_audio_run. cbn [fst]. split; [reflexivity|].
  set (chunks := split_on_silence sound 1000 (-50) 150).
  rewrite length_zip_with_r_eq by (rewrite length_seqZ; lia).
  assert (Hlen : length (seqZ 1 (Z.of_nat (length chunks))) = length chunks)
    by (rewrite length_seqZ; lia).
  revert Hlen. generalize (seqZ 1 (Z.of_nat (length chunks))) as js.
  induction chunks as [|c r IH]; intros [|j js] Hlen; try discriminate; [reflexivity|].
  cbn [zip_with map fst]. f_equal. apply IH. now injection Hlen.
Qed.

End Archive.

(** ** Further properties of the operations *)

(** X1.  The entries [cut_audio] writes to the archive, read back as
    files in archive order, are already in the order [join_audio] and
    [generate_anki_csv] sort them in: the name of chunk [i] carries the
    key [i], so chunk 10 follows chunk 9 and does not precede chunk 2. *)
Theorem cut_then_join_keeps_order `{AudioPort} (sound : list (list Z)) (lines : list string)
    (suffix : string) (w : world) (encode : list (list Z) -> list Byte.byte) :
  exists entries,
    returned (cut_audio sound lines suffix w) = Some entries
    /\ let files := map (fun e => {| name := fst e; _data := encode (snd e) |}) entries in
       sorted key files = files
       /\ map key files = map KInt (seqZ 1 (Z.of_nat (length entries))).
Proof.
  destruct (cut_audio_names sound lines suffix w) as (entries & Hret & Hnames).
  exists entries. split; [exact Hret|]. cbv zeta.
  assert (Hk : map key (map (fun e => {| name := fst e; _data := encode (snd e) |}) entries)
               = map KInt (seqZ 1 (Z.of_nat (length entries)))).
  { rewrite map_map. unfold key. cbn [name].
    rewrite <- (map_map fst key_of_name), Hnames, map_map.
    apply map_ext_in. intros j Hj. apply list_elem_of_In, elem_of_seqZ in Hj.
    apply key_of_chunk_name. lia. }
  split; [|exact Hk].
  apply sorted_fixed. eapply sorted_by_int_keys; [exact Hk | apply seqZ_le_sorted].
Qed.

(** X2.  No two entries of the archive [cut_audio] builds share a
    name. *)
Theorem chunk_names_distinct `{AudioPort} (sound : list (list Z)) (lines : list string)
    (suffix : string) (w : world) :
  exists entries,
    returned (cut_audio sound lines suffix w) = Some entries
    /\ NoDup (map fst entries).
Proof.
  destruct (cut_audio_names sound lines suffix w) as (entries & Hret & Hnames).
  exists entries. split; [exact Hret|].
  apply (NoDup_fmap_1 key_of_name). change (NoDup (map key_of_name (map fst entries))).
  rewrite Hnames, map_map.
  rewrite (map_ext_in _ KInt).
  - apply NoDup_fmap_2; [intros a b; congruence | apply NoDup_seqZ].
  - intros j Hj. apply list_elem_of_In, elem_of_seqZ in Hj. apply key_of_chunk_name. lia.
Qed.

Lemma key_le_antisym a b : key_le a b -> key_le b a -> a = b.
Proof.
  unfold key_le. destruct a, b; simpl; try congruence.
  rewrite !Z.ltb_ge. intros. f_equal. lia.
Qed.

Lemma sorted_lists_equal {A} (k : A -> sort_key) : forall l1 l2,
  StronglySorted (fun a b => key_le (k a) (k b)) l1 ->
  StronglySorted (fun a b => key_le (k a) (k b)) l2 ->
  Permutation l1 l2 -> NoDup (map k l1) -> l1 = l2.
Proof.
  induction l1 as [|x r1 IH]; intros l2 H1 H2 HP HN.
  - apply Permutation_nil in HP. now subst.
  - destruct l2 as [|y r2]; [apply Permutation_sym, Permutation_nil in HP; discriminate|].
    inversion H1 as [|? ? H1' Hx]; subst. inversion H2 as [|? ? H2' Hy]; subst.
    rewrite List.Forall_forall in Hx, Hy.
    cbn [map] in HN. apply NoDup_cons in HN as [Hnx HN'].
    assert (Exy : x = y).
    { assert (Hyin : In y (x :: r1))
        by (apply (Permutation_in _ (Permutation_sym HP)); now left).
      destruct Hyin as [E|Hyr]; [exact E|]. exfalso.
      assert (Hxin : In x (y :: r2)) by (apply (Permutation_in _ HP); now left).
      apply Hnx. apply list_elem_of_In.
      assert (Ek : k x = k y).
      { destruct Hxin as [E|Hxr]; [now subst|].
        apply key_le_antisym; [now apply Hx | now apply Hy]. }
      rewrite Ek. now apply in_map. }
    subst y. f_equal. apply IH; try assumption.
    now apply Permutation_cons_inv in HP.
Qed.

(** X3.  When the sort keys of the files are pairwise different, the
    order in which the files are passed does not matter: both
    [generate_anki_csv] and [join_audio] behave the same on every
    permutation of them. *)
Theorem upload_order_is_irrelevant `{AudioPort} (files files' : list InMemoryFile) :
  Permutation files files' -> NoDup (map key files) ->
  sorted key files = sorted key files'
  /\ (forall rows w, generate_anki_csv rows files w = generate_anki_csv rows files' w)
  /\ (forall mode w, join_audio files mode w = join_audio files' mode w).
Proof.
  intros HP HN.
  assert (E : sorted key files = sorted key files').
  { apply (sorted_lists_equal key); try apply sorted_sorted.
    - rewrite <- (sorted_perm key files), <- (sorted_perm key files'). exact HP.
    - assert (HPk : Permutation (map key files) (map key (sorted key files)))
        by apply Permutation_map, sorted_perm.
      now rewrite <- HPk. }
  split; [exact E|]. split.
  - intros rows w. unfold generate_anki_csv. cbv zeta. now rewrite E.
  - intros mode w. unfold join_audio. cbv zeta. now rewrite E.
Qed.

Lemma upload_order_is_irrelevant_witness :
  sorted key [file "2-x"; file "1-y"] = sorted key [file "1-y"; file "2-x"].
Proof.
  refine (proj1 (@upload_order_is_irrelevant Pcm16 [file "2-x"; file "1-y"]
                   [file "1-y"; file "2-x"] _ _)).
  - apply perm_swap.
  - vm_compute. repeat constructor; rewrite ?list_elem_of_In; simpl; intuition congruence.
Defined.

Lemma last_map_seqZ (f : Z -> Z) n d :
  1 <= n -> List.last (map f (seqZ 1 n)) d = f n.
Proof.
  intros Hn. replace n with ((n - 1) + 1) at 1 by lia.
  rewrite seqZ_app by lia. rewrite map_app. cbn [seqZ].
  replace (1 + (n - 1)) with n by lia.
  change (map f (seqZ n 1)) with [f n]. apply last_last.
Qed.

Lemma last_app_nonempty {A} (l1 l2 : list A) d :
  l2 <> [] -> List.last (l1 ++ l2) d = List.last l2 d.
Proof.
  intros Hne. destruct (exists_last Hne) as (l & x & ->).
  rewrite app_assoc, !last_last. reflexivity.
Qed.

(** X4.  Every operation that completes at least one unit of work ends
    its progress at exactly 100, computed in binary64: [cut_audio] with
    at least one chunk, [generate_anki_csv] with at least one row, and
    [join_audio] with at least one file, whose loading phase ends at
    exactly 50. *)
Theorem progress_reaches_100 `{AudioPort} :
  (forall sound lines suffix w,
      split_on_silence sound 1000 (-50) 150 <> [] ->
      List.last (reported (cut_audio sound lines suffix w)) 0 = 100)
  /\ (forall rows files w,
        length rows = length files -> rows <> [] ->
        List.last (reported (generate_anki_csv rows files w)) 0 = 100)
  /\ (forall files mode sounds w,
        Forall2 (fun f s => from_file (read f) = Some s) (sorted key files) sounds ->
        files <> [] ->
        exists trimming concatenating,
          reported (join_audio files mode w) = sink w ++ trimming ++ concatenating
          /\ length trimming = length files /\ length concatenating = length files
          /\ List.last trimming 0 = 50 /\ List.last concatenating 0 = 100).
Proof.
  assert (Hpos : forall {A} (l : list A), l <> [] -> 1 <= Z.of_nat (length l))
    by (intros A [|x l] Hl; [congruence | simpl; lia]).
  repeat split.
  - intros sound lines suffix w Hne. unfold reported. rewrite cut_audio_run. cbn [snd sink].
    specialize (Hpos _ _ Hne).
    rewrite last_app_nonempty.
    + rewrite last_map_seqZ by lia. apply pct_full; [lia | lia | reflexivity].
    + intros E. apply (f_equal (@length Z)) in E.
      rewrite length_map, length_seqZ in E. simpl in E. lia.
  - intros rows files w Hlen Hne. unfold reported.
    rewrite generate_anki_csv_ok by assumption. cbn [snd sink].
    specialize (Hpos _ _ Hne).
    rewrite last_app_nonempty.
    + rewrite last_map_seqZ by lia. apply pct_full; [lia | lia | reflexivity].
    + intros E. apply (f_equal (@length Z)) in E.
      rewrite length_map, length_seqZ in E. simpl in E. lia.
  - intros files mode sounds w HF Hne. specialize (Hpos _ _ Hne).
    eexists _, _. unfold reported. rewrite (join_audio_ok _ _ _ _ HF). cbn [snd sink].
    split; [reflexivity|].
    rewrite !length_map, !length_seqZ, !last_map_seqZ by lia.
    rewrite pct_full by (lia || reflexivity).
    repeat split; lia.
Qed.

Lemma progress_reaches_100_witness :
  List.last (reported (@cut_audio Pcm16 one_span [] "X" world0)) 0 = 100
  /\ List.last (reported (generate_anki_csv [["a"]] [file "1"] world0)) 0 = 100
  /\ exists trimming concatenating,
       reported (@join_audio Pcm16 [loud_file] "SAI" world0)
       = sink world0 ++ trimming ++ concatenating
       /\ length trimming = 1%nat /\ length concatenating = 1%nat
       /\ List.last trimming 0 = 50 /\ List.last concatenating 0 = 100.
Proof.
  destruct (@progress_reaches_100 Pcm16) as (H1 & H2 & H3).
  split; [|split].
  - apply H1. vm_compute. discriminate.
  - apply H2; [reflexivity | discriminate].
  - apply (H3 [loud_file] "SAI" [tone 3 32512] world0); [|discriminate].
    vm_compute. repeat constructor.
Defined.




Lemma wf_spans_within m hi : 0 <= m -> forall ns lo i s e d,
  wf_spans m lo hi ns -> ns !! i = Some (s, e) ->
  fst (hd d ns) <= s /\ e <= snd (List.last ns d).
Proof.
  intros Hm. induction ns as [|[s' e'] ns IH]; intros lo i s e d Hwf Hi; [discriminate|].
  destruct Hwf as (H1 & H2 & H3 & Hwf). cbn [hd fst].
  destruct ns as [|[s'' e''] ns'].
  - destruct i as [|i]; [|discriminate]. injection Hi as <- <-. simpl. lia.
  - change (List.last ((s', e') :: (s'', e'') :: ns') d)
      with (List.last ((s'', e'') :: ns') d).
    pose proof (wf_spans_last m hi ns' _ s'' e'' d Hm Hwf) as Hl.
    destruct Hwf as (H4 & H5 & H6 & Hwf').
    destruct i as [|i].
    + injection Hi as <- <-. lia.
    + assert (Hwf : wf_spans m (e' + m) hi ((s'', e'') :: ns')) by (simpl; auto).
      destruct (IH _ _ _ _ d Hwf Hi) as [Hs He]. cbn [hd fst] in Hs. lia.
Qed.

Lemma wf_spans_consecutive m hi : forall ns lo i s e s' e',
  wf_spans m lo hi ns -> ns !! i = Some (s, e) -> ns !! S i = Some (s', e') ->
  e + m <= s'.
Proof.
  induction ns as [|[a b] ns IH]; intros lo i s e s' e' Hwf Hi Hi'; [discriminate|].
  destruct Hwf as (_ & _ & _ & Hwf). destruct i as [|i].
  - injection Hi as <- <-. destruct ns as [|[a' b'] ns']; [discriminate|].
    injection Hi' as <- <-. simpl in Hwf. lia.
  - apply (IH _ _ _ _ _ _ Hwf Hi Hi').
Qed.

(** X7.  Trimming never cuts into detected sound and never lengthens a
    chunk: every non-silent span found at 25 ms and -40 dBFS lies
    inside the kept part, frame for frame. *)
Theorem trim_keeps_every_span `{AudioPort} (sound : list (list Z)) (i : nat) (s e : Z) :
  detect_nonsilent sound 25 (-40) !! i = Some (s, e) ->
  exists start stop,
    trim sound = slice sound start stop
    /\ 0 <= start /\ start <= s /\ e <= stop /\ stop <= len sound
    /\ len (trim sound) <= len sound
    /\ forall j, s <= j < e -> trim sound !! Z.to_nat (j - start) = sound !! Z.to_nat j.
Proof.
  intros Hi.
  pose proof (detect_nonsilent_wf sound 25 (-40) ltac:(lia)) as Hwf.
  pose proof (len_nonneg sound) as HL.
  unfold trim. cbv zeta.
  destruct (detect_nonsilent sound 25 (-40)) as [|[s0 e0] rest] eqn:EN; [discriminate|].
  destruct (wf_spans_within 25 _ ltac:(lia) _ _ _ _ _ (s0, e0) Hwf Hi) as [Hs He].
  destruct (wf_spans_lookup 25 _ _ _ _ _ _ ltac:(lia) Hwf Hi) as (Hs' & Hse & He').
  pose proof (wf_spans_last 25 _ _ _ _ _ (s0, e0) ltac:(lia) Hwf) as Hl.
  destruct Hwf as (H0 & _). cbn [hd fst] in *.
  set (le := snd (List.last ((s0, e0) :: rest) (s0, e0))) in *.
  exists (Z.max 0 (s0 - 100)), (Z.min (len sound) (le + 100)).
  split; [reflexivity|]. repeat split; try lia.
  - rewrite len_slice by lia. lia.
  - intros j Hj. rewrite lookup_slice by lia. f_equal. lia.
Qed.

Lemma trim_keeps_every_span_witness :
  exists start stop,
    @trim Pcm16 short_burst = slice short_burst start stop
    /\ 0 <= start /\ start <= 120 /\ 170 <= stop /\ stop <= len short_burst
    /\ len (@trim Pcm16 short_burst) <= len short_burst
    /\ forall j, 120 <= j < 170 ->
         @trim Pcm16 short_burst !! Z.to_nat (j - start) = short_burst !! Z.to_nat j.
Proof.
  apply (@trim_keeps_every_span Pcm16 short_burst 0 120 170).
  vm_compute. reflexivity.
Defined.

(** X8.  A recording shorter than one second is never split, whatever
    it contains: [cut_audio] returns exactly one chunk, the whole
    recording between the two pads, named with index 1, and reports
    100 once.  This includes the empty recording. *)
Theorem short_recording_is_one_chunk `{AudioPort} (sound : list (list Z))
    (lines : list string) (suffix : string) (w : world) :
  len sound < 1000 ->
  cut_audio sound lines suffix w
  = (Ok [(chunk_name lines suffix 1, silent 150 ++ sound ++ silent 150)],
     World (sink w ++ [100]) (tmp w)).
Proof.
  intros Hlt. pose proof (len_nonneg sound) as HL.
  assert (E : split_on_silence sound 1000 (-50) 150 = [sound]).
  { unfold split_on_silence, output_ranges, detect_nonsilent, detect_silence.
    destruct (Z.ltb_spec (len sound) 1000) as [_|]; [|lia].
    cbn [map meet_overlaps fst snd].
    replace (Z.max (0 - 150) 0) with 0 by lia.
    replace (Z.min (len sound + 150) (len sound)) with (len sound) by lia.
    now rewrite slice_all. }
  rewrite cut_audio_run. rewrite E. change (Z.of_nat (length [sound])) with 1.
  change (seqZ 1 1) with [1]. cbn [zip_with map].
  rewrite pct_full by (lia || reflexivity). reflexivity.
Qed.

Lemma short_recording_is_one_chunk_witness :
  @cut_audio Pcm16 (tone 3 20000) [] "X" world0
  = (Ok [(chunk_name [] "X" 1, @silent Pcm16 150 ++ tone 3 20000 ++ @silent Pcm16 150)],
     World (sink world0 ++ [100]) (tmp world0)).
Proof.
  apply (@short_recording_is_one_chunk Pcm16 (tone 3 20000) [] "X" world0).
  vm_compute. reflexivity.
Defined.

Lemma filter_all_true {A} (p : A -> bool) l :
  (forall x, In x l -> p x = true) -> List.filter p l = l.
Proof.
  induction l as [|x r IH]; intros Hp; [reflexivity|]. simpl.
  rewrite (Hp x) by now left. f_equal. apply IH. intros y Hy. apply Hp. now right.
Qed.

Lemma filter_all_false {A} (p : A -> bool) l :
  (forall x, In x l -> p x = false) -> List.filter p l = [].
Proof.
  induction l as [|x r IH]; intros Hp; [reflexivity|]. simpl.
  rewrite (Hp x) by now left. apply IH. intros y Hy. apply Hp. now right.
Qed.

Lemma group_ranges_consecutive m : forall n cur prev,
  group_ranges m cur prev (seqZ (prev + 1) (Z.of_nat n)) = [(cur, prev + Z.of_nat n + m)].
Proof.
  induction n as [|n IH]; intros cur prev.
  - simpl. do 2 f_equal. lia.
  - rewrite seqZ_S. cbn [group_ranges]. rewrite Z.eqb_refl. cbn [negb andb].
    rewrite IH. do 2 f_equal. lia.
Qed.

Section Uniform.
Context `{AudioPort}.

(** Every window silent: no non-silent span. *)
Lemma detect_nonsilent_all_silent sound m thresh :
  1 <= m -> m <= len sound ->
  (forall i, 0 <= i <= len sound - m ->
             rms_le thresh (samples (slice sound i (i + m))) = true) ->
  detect_nonsilent sound m thresh = [].
Proof.
  intros Hm HL Hall. unfold detect_nonsilent. cbv zeta. rewrite detect_silence_starts.
  unfold silence_starts, range. rewrite filter_all_true.
  2:{ intros i Hi. apply list_elem_of_In, elem_of_seqZ in Hi. apply Hall. lia. }
  replace (len sound - m + 1) with (Z.of_nat (S (Z.to_nat (len sound - m)))) by lia.
  rewrite seqZ_S. change (0 + 1) with 1.
  rewrite (group_ranges_consecutive m _ 0 0).
  replace (0 + Z.of_nat (Z.to_nat (len sound - m)) + m) with (len sound) by lia.
  now rewrite !Z.eqb_refl.
Qed.

(** No window silent: one span, the whole waveform. *)
Lemma detect_nonsilent_no_silence sound m thresh :
  (forall i, 0 <= i <= len sound - m ->
             rms_le thresh (samples (slice sound i (i + m))) = false) ->
  detect_nonsilent sound m thresh = [(0, len sound)].
Proof.
  intros Hnone. unfold detect_nonsilent. cbv zeta. rewrite detect_silence_starts.
  unfold silence_starts, range. rewrite filter_all_false; [reflexivity|].
  intros i Hi. apply list_elem_of_In, elem_of_seqZ in Hi. apply Hnone. lia.
Qed.

End Uniform.

(** X9.  A recording of at least one second in which every one-second
    window is silent yields no chunk at all: [cut_audio] returns an
    empty archive and reports no progress (the loop that divides by
    the chunk count is never entered). *)
Theorem silent_recording_gives_no_chunk `{AudioPort} (sound : list (list Z))
    (lines : list string) (suffix : string) (w : world) :
  1000 <= len sound ->
  (forall i, 0 <= i <= len sound - 1000 ->
             rms_le (-50) (samples (slice sound i (i + 1000))) = true) ->
  cut_audio sound lines suffix w = (Ok [], w).
Proof.
  intros HL Hall. unfold cut_audio, split_on_silence, output_ranges. cbv zeta.
  rewrite detect_nonsilent_all_silent by (lia || assumption).
  reflexivity.
Qed.

Lemma silent_recording_gives_no_chunk_witness :
  @cut_audio Pcm16 (tone 1000 0) [] "X" world0 = (Ok [], world0).
Proof.
  apply (@silent_recording_gives_no_chunk Pcm16 (tone 1000 0) [] "X" world0).
  - vm_compute. discriminate.
  - intros i Hi. assert (E : len (tone 1000 0) = 1000) by (vm_compute; reflexivity).
    rewrite E in Hi. assert (i = 0) as -> by lia.
    vm_compute. reflexivity.
Defined.

(** X10.  A chunk that is silent throughout, or in which no 25 ms
    window is silent, is not trimmed: the composition keeps it whole. *)
Theorem uniform_chunk_is_not_trimmed `{AudioPort} (sound : list (list Z)) :
  (25 <= len sound
   /\ forall i, 0 <= i <= len sound - 25 ->
                rms_le (-40) (samples (slice sound i (i + 25))) = true)
  \/ (forall i, 0 <= i <= len sound - 25 ->
                rms_le (-40) (samples (slice sound i (i + 25))) = false) ->
  trim sound = sound.
Proof.
  intros [[HL Hall]|Hnone]; apply trim_fixed; cbv zeta.
  - left. apply detect_nonsilent_all_silent; [lia | exact HL | exact Hall].
  - right. rewrite detect_nonsilent_no_silence by exact Hnone. simpl.
    pose proof (len_nonneg sound). lia.
Qed.

Lemma uniform_chunk_is_not_trimmed_witness : @trim Pcm16 (tone 25 0) = tone 25 0.
Proof.
  apply (@uniform_chunk_is_not_trimmed Pcm16 (tone 25 0)). left. split.
  - vm_compute. discriminate.
  - intros i Hi. assert (E : len (tone 25 0) = 25) by (vm_compute; reflexivity).
    rewrite E in Hi. assert (i = 0) as -> by lia.
    vm_compute. reflexivity.
Defined.



(** X12.  The parts of the recording that consecutive chunks of
    [cut_audio] keep never overlap: with one second of minimal silence
    and 150 ms kept on each side, at least 700 ms of the recording lie
    between the end of one chunk and the start of the next. *)
Theorem chunks_do_not_overlap `{AudioPort} (sound : list (list Z)) (i : nat)
    (s e s' e' : Z) :
  detect_nonsilent sound 1000 (-50) !! i = Some (s, e) ->
  detect_nonsilent sound 1000 (-50) !! S i = Some (s', e') ->
  split_on_silence sound 1000 (-50) 150 !! i
    = Some (slice sound (Z.max (s - 150) 0) (Z.min (e + 150) (len sound)))
  /\ split_on_silence sound 1000 (-50) 150 !! S i
     = Some (slice sound (Z.max (s' - 150) 0) (Z.min (e' + 150) (len sound)))
  /\ Z.min (e + 150) (len sound) + 700 <= Z.max (s' - 150) 0.
Proof.
  intros Hi Hi'.
  pose proof (detect_nonsilent_wf sound 1000 (-50) ltac:(lia)) as Hwf.
  rewrite split_on_silence_chunks by lia. rewrite !list_lookup_fmap, Hi, Hi'.
  split; [reflexivity|]. split; [reflexivity|].
  pose proof (wf_spans_consecutive _ _ _ _ _ _ _ _ _ Hwf Hi Hi').
  destruct (wf_spans_lookup 1000 _ _ _ _ _ _ ltac:(lia) Hwf Hi) as (? & ? & ?).
  lia.
Qed.

Lemma chunks_do_not_overlap_witness :
  Z.min (3 + 150) (len two_spans) + 700 <= Z.max (1003 - 150) 0.
Proof.
  apply (@chunks_do_not_overlap Pcm16 two_spans 0 0 3 1003 1006); vm_compute; reflexivity.
Defined.

Lemma sorted_names {A} (k : string -> sort_key) (nm : A -> string) l :
  StronglySorted (fun a b => key_le (k (nm a)) (k (nm b))) l ->
  StronglySorted (fun a b => key_le (k a) (k b)) (map nm l).
Proof.
  induction 1 as [|x r Hr IH Hx]; cbn [map]; constructor; [exact IH|].
  rewrite List.Forall_forall in *. intros y Hy. apply in_map_iff in Hy as (z & <- & Hz).
  now apply Hx.
Qed.

(** X13.  Pairing after cutting.  Given the files of the archive
    [cut_audio] produced, uploaded in any order, and as many rows as
    chunks, [generate_anki_csv] gives row [i] the sound field of chunk
    [i]: the rows end up paired with the chunks in chronological
    order. *)
Theorem pairing_follows_the_chunks `{AudioPort} (sound : list (list Z))
    (lines : list string) (suffix : string) (w w' : world)
    (entries : list (string * list (list Z))) (files : list InMemoryFile)
    (rows : list (list string)) :
  returned (cut_audio sound lines suffix w) = Some entries ->
  Permutation (map name files) (map fst entries) ->
  length rows = length entries ->
  returned (generate_anki_csv rows files w')
  = Some (zip_with (fun row e => row ++ ["[sound:" +:+ fst e +:+ "]"]) rows entries).
Proof.
  intros Hret HP Hlen.
  destruct (cut_audio_names sound lines suffix w) as (entries' & Hret' & Hnames).
  rewrite Hret in Hret'. injection Hret' as <-.
  assert (Hkeys : map key_of_name (map fst entries)
                  = map KInt (seqZ 1 (Z.of_nat (length entries)))).
  { rewrite Hnames at 1. rewrite map_map. apply map_ext_in. intros j Hj.
    apply list_elem_of_In, elem_of_seqZ in Hj. apply key_of_chunk_name. lia. }
  assert (Hsorted : map name (sorted key files) = map fst entries).
  { apply (sorted_lists_equal key_of_name).
    - apply sorted_names. apply (sorted_sorted key files).
    - eapply sorted_by_int_keys; [exact Hkeys | apply seqZ_le_sorted].
    - rewrite <- HP. apply Permutation_map, Permutation_sym, sorted_perm.
    - assert (HPk : Permutation (map key_of_name (map fst entries))
                                (map key_of_name (map name (sorted key files)))).
      { apply Permutation_map. rewrite <- HP.
        apply Permutation_map, sorted_perm. }
      rewrite <- HPk, Hkeys.
      apply NoDup_fmap_2; [intros a b; congruence | apply NoDup_seqZ]. }
  assert (Hfl : length files = length entries).
  { rewrite <- (length_map fst entries), <- (Permutation_length HP). now rewrite length_map. }
  unfold returned. rewrite generate_anki_csv_ok by lia. cbn [fst]. f_equal.
  unfold sound_field.
  revert Hsorted. generalize (sorted key files) as fs. clear.
  intros fs. revert fs rows. induction entries as [|e es IH]; intros [|f fs] rows Hs;
    try discriminate; destruct rows as [|row rows]; try reflexivity.
  cbn [zip_with]. injection Hs as Hf Hs. rewrite Hf. f_equal. now apply IH.
Qed.

Lemma pairing_follows_the_chunks_witness :
  returned (generate_anki_csv [["a"]; ["b"]]
              [file "2--X.mp3"; file "1-HelloWorld-X.mp3"] world0)
  = Some [["a"; "[sound:1-HelloWorld-X.mp3]"]; ["b"; "[sound:2--X.mp3]"]].
Proof.
  destruct (@returned _ (@cut_audio Pcm16 two_spans hello_lines "X" world0))
    as [entries|] eqn:E; [|revert E; vm_compute; discriminate].
  assert (Hn : map fst entries = ["1-HelloWorld-X.mp3"; "2--X.mp3"]%string)
    by (revert E; vm_compute; intros [= <-]; reflexivity).
  pose proof (@pairing_follows_the_chunks Pcm16 two_spans hello_lines "X" world0 world0
                entries [file "2--X.mp3"; file "1-HelloWorld-X.mp3"] [["a"]; ["b"]] E) as P.
  rewrite P.
  - clear E P. destruct entries as [|[n1 c1] [|[n2 c2] [|]]]; try discriminate.
    injection Hn as -> ->. reflexivity.
  - rewrite Hn. simpl. apply perm_swap.
  - apply (f_equal (@length string)) in Hn. now rewrite length_map in Hn.
Defined.
